(** * Sparse matrices stored as a dictionary of coordinates

    A shallow embedding of [sparse.py]: the class [SparseMatrix] with its
    loader [from_file], its accessors [get_element] and [set_element], the
    three arithmetic methods [add], [subtract] and [multiply], and the
    serializer [__str__].

    Modelling choices.
    - Python integers are unbounded: [Z]; [int] and [str] convert between
      them and decimal numerals of any length.
    - A Python [str] is a list of characters.  Characters are the code points
      below 256 ([ascii]); on that range [\d] is [0-9] and the white space of
      [str.strip] and of [\s] is the set given by [isspace] below.
    - [self.data] is a [dict]: keys are unique and iteration follows
      insertion order, so it is an association list in which [dict_set]
      overwrites in place or appends.
    - Matrices are objects: methods receive references, and the object store
      is threaded through a state-and-exception monad, so that what a method
      allocates, reads and writes is visible in its result. *)

From Stdlib Require Import ZArith Ascii String Lia.
From stdpp Require Import base option list gmap.

Local Open Scope Z_scope.

(** ** Strings *)

Abbreviation str := (list ascii).

Definition lit (s : string) : str := list_ascii_of_string s.

Definition code (c : ascii) : Z := Z.of_N (N_of_ascii c).

(** [\d] on code points below 256. *)
Definition isdigit (c : ascii) : bool := (48 <=? code c) && (code c <=? 57).

(** The characters removed by [str.strip()] and matched by [\s]. *)
Definition isspace (c : ascii) : bool :=
  ((9 <=? code c) && (code c <=? 13)) || ((28 <=? code c) && (code c <=? 32))
  || (code c =? 133) || (code c =? 160).

Fixpoint lstrip (s : str) : str :=
  match s with
  | c :: s' => if isspace c then lstrip s' else s
  | [] => []
  end.

Definition rstrip (s : str) : str := rev (lstrip (rev s)).

Definition strip (s : str) : str := lstrip (rstrip s).

Definition digit_char (d : Z) : ascii := ascii_of_N (Z.to_N (48 + d)).

Definition digit_val (c : ascii) : Z := code c - 48.

(** [str(n)] for [0 <= n]: the decimal digits, most significant first.  The
    fuel is the number of binary digits of [n], which bounds the number of
    decimal ones. *)
Fixpoint str_digits (fuel : nat) (n : Z) (acc : str) : str :=
  match fuel with
  | O => acc
  | S fuel' =>
      let acc' := digit_char (n mod 10) :: acc in
      if n / 10 =? 0 then acc' else str_digits fuel' (n / 10) acc'
  end.

Definition str_nonneg (n : Z) : str := str_digits (S (Z.to_nat (Z.log2 n))) n [].

(** [str(n)] for an integer [n]. *)
Definition str_of_int (n : Z) : str :=
  if n <? 0 then "-"%char :: str_nonneg (- n) else str_nonneg n.

(** [int(s)] for a string of digits. *)
Definition int_of_digits (s : str) : Z :=
  fold_left (fun a c => 10 * a + digit_val c) s 0.

(** [int(s)] on the strings the loader passes to it, of the form [-?\d+]. *)
Definition int (s : str) : Z :=
  match s with
  | c :: ds => if Ascii.eqb c "-" then - int_of_digits ds else int_of_digits s
  | [] => int_of_digits s
  end.

(** ** Reading a text file

    [open(path, "r")] translates every line ending to a line feed, and
    [readlines] cuts after each line feed, keeping it. *)

Definition LF : ascii := ascii_of_N 10.
Definition CR : ascii := ascii_of_N 13.

Fixpoint universal_newlines (s : str) : str :=
  match s with
  | c :: s' =>
      if Ascii.eqb c CR then
        match s' with
        | c' :: s'' =>
            if Ascii.eqb c' LF then LF :: universal_newlines s''
            else LF :: universal_newlines s'
        | [] => [LF]
        end
      else c :: universal_newlines s'
  | [] => []
  end.

(** [split_lines cur s]: the lines of [s], where [cur] holds, reversed, the
    characters of the line being read. *)
Fixpoint split_lines (cur : str) (s : str) : list str :=
  match s with
  | c :: s' =>
      if Ascii.eqb c LF then rev (c :: cur) :: split_lines [] s'
      else split_lines (c :: cur) s'
  | [] => match cur with [] => [] | _ => [rev cur] end
  end.

Definition readlines (content : str) : list str :=
  split_lines [] (universal_newlines content).

(** ** Regular expressions of the loader

    [re.match] anchors the pattern at the start of the string only.  In the
    three patterns every repetition is greedy and is followed by a character
    outside its class, so that the leftmost-longest choice made below is the
    only one that can succeed; [entry_prefix_iff] proves it against the
    language of the pattern. *)

Definition expect (c : ascii) (s : str) : option str :=
  match s with
  | c' :: s' => if Ascii.eqb c c' then Some s' else None
  | [] => None
  end.

Fixpoint expect_all (p : str) (s : str) : option str :=
  match p with
  | [] => Some s
  | c :: p' => s' ← expect c s; expect_all p' s'
  end.

Fixpoint span_digits (s : str) : str * str :=
  match s with
  | c :: s' =>
      if isdigit c then let '(d, r) := span_digits s' in (c :: d, r)
      else ([], s)
  | [] => ([], [])
  end.

(** [(\d+)] *)
Definition digits1 (s : str) : option (str * str) :=
  match span_digits s with
  | ([], _) => None
  | (d, r) => Some (d, r)
  end.

(** [(-?\d+)] *)
Definition signed_digits1 (s : str) : option (str * str) :=
  match s with
  | c :: s' =>
      if Ascii.eqb c "-" then '(d, r) ← digits1 s'; Some (c :: d, r)
      else digits1 s
  | [] => digits1 s
  end.

(** [re.match(r'rows=(\d+)', s)], giving group 1. *)
Definition match_rows (s : str) : option str :=
  s1 ← expect_all (lit "rows=") s; '(d, _) ← digits1 s1; Some d.

(** [re.match(r'cols=(\d+)', s)], giving group 1. *)
Definition match_cols (s : str) : option str :=
  s1 ← expect_all (lit "cols=") s; '(d, _) ← digits1 s1; Some d.

(** [re.match(r'\((\d+),\s*(\d+),\s*(-?\d+)\)', s)], giving groups 1 to 3. *)
Definition match_entry (s : str) : option (str * str * str) :=
  s1 ← expect "("%char s;
  '(g1, s2) ← digits1 s1;
  s3 ← expect ","%char s2;
  '(g2, s4) ← digits1 (lstrip s3);
  s5 ← expect ","%char s4;
  '(g3, s6) ← signed_digits1 (lstrip s5);
  _ ← expect ")"%char s6;
  Some (g1, g2, g3).

(** ** Dictionaries keyed by coordinates *)

Abbreviation key := (Z * Z)%type.
Abbreviation dict := (list (key * Z)).

(** [d.get(k, default)] *)
Fixpoint dict_get (d : dict) (k : key) (default : Z) : Z :=
  match d with
  | (k', v) :: d' => if decide (k' = k) then v else dict_get d' k default
  | [] => default
  end.

(** [d[k] = v]: an existing key keeps its place, a new one goes last. *)
Fixpoint dict_set (d : dict) (k : key) (v : Z) : dict :=
  match d with
  | (k', v') :: d' =>
      if decide (k' = k) then (k', v) :: d' else (k', v') :: dict_set d' k v
  | [] => [(k, v)]
  end.

(** The keys of a [dict] are pairwise distinct. *)
Definition dict_wf (d : dict) : Prop := NoDup d.*1.

(** ** Objects, the store and the monad of methods *)

Record SparseMatrix := mkSparseMatrix {
  row_count : Z;
  col_count : Z;
  data : dict
}.

Inductive exn :=
  | ValueError (msg : str)
  | FileNotFoundError (msg : str)
  | NoSuchObject.

Inductive result (A : Type) :=
  | Ok (a : A)
  | Raise (e : exn).
Arguments Ok {A} a.
Arguments Raise {A} e.

Abbreviation loc := nat.
Abbreviation heap := (gmap nat SparseMatrix).

Definition M (A : Type) : Type := heap → result A * heap.

#[export] Instance M_ret : MRet M := λ A a h, (Ok a, h).

#[export] Instance M_bind : MBind M := λ A B f m h,
  match m h with
  | (Ok a, h') => f a h'
  | (Raise e, h') => (Raise e, h')
  end.

Definition raise {A} (e : exn) : M A := λ h, (Raise e, h).

(** A reference always denotes a live object in Python; [NoSuchObject] is
    the outcome of the model on a reference that the store does not hold. *)
Definition deref (l : loc) : M SparseMatrix := λ h,
  match h !! l with
  | Some m => (Ok m, h)
  | None => (Raise NoSuchObject, h)
  end.

Definition assign (l : loc) (m : SparseMatrix) : M unit := λ h, (Ok tt, <[l := m]> h).

Definition alloc (m : SparseMatrix) : M loc := λ h,
  let l := fresh (dom h) in (Ok l, <[l := m]> h).

Definition get_row_count (self : loc) : M Z := m ← deref self; mret (row_count m).
Definition get_col_count (self : loc) : M Z := m ← deref self; mret (col_count m).
Definition get_data (self : loc) : M dict := m ← deref self; mret (data m).

Definition set_row_count (self : loc) (v : Z) : M unit :=
  m ← deref self; assign self (mkSparseMatrix v (col_count m) (data m)).
Definition set_col_count (self : loc) (v : Z) : M unit :=
  m ← deref self; assign self (mkSparseMatrix (row_count m) v (data m)).
Definition set_data (self : loc) (d : dict) : M unit :=
  m ← deref self; assign self (mkSparseMatrix (row_count m) (col_count m) d).

Fixpoint for_each {A} (xs : list A) (body : A → M unit) : M unit :=
  match xs with
  | [] => mret tt
  | x :: xs' => body x;; for_each xs' body
  end.

(** [range(n)] *)
Definition range (n : Z) : list Z := seqZ 0 n.

(** ** The class [SparseMatrix] *)

(** [SparseMatrix(row_count, col_count)]: a new object, as [__init__]
    leaves it. *)
Definition new_SparseMatrix (row_count col_count : Z) : M loc :=
  alloc (mkSparseMatrix row_count col_count []).

Definition get_element (self : loc) (row_idx col_idx : Z) : M Z :=
  d ← get_data self;
  mret (dict_get d (row_idx, col_idx) 0).

Definition set_element (self : loc) (row_idx col_idx value : Z) : M unit :=
  rc ← get_row_count self;
  (if row_idx >=? rc then set_row_count self (row_idx + 1) else mret tt);;
  cc ← get_col_count self;
  (if col_idx >=? cc then set_col_count self (col_idx + 1) else mret tt);;
  d ← get_data self;
  set_data self (dict_set d (row_idx, col_idx) value).

Definition msg_add : str :=
  lit "Matrices must have the same dimensions for addition.".
Definition msg_subtract : str :=
  lit "Matrices must have the same dimensions for subtraction.".
Definition msg_multiply : str :=
  lit "Number of columns of the first matrix must equal the number of rows of the second matrix.".

Definition add (self other_matrix : loc) : M loc :=
  r1 ← get_row_count self; r2 ← get_row_count other_matrix;
  c1 ← get_col_count self; c2 ← get_col_count other_matrix;
  if negb (r1 =? r2) || negb (c1 =? c2) then raise (ValueError msg_add)
  else
    rows ← get_row_count self; cols ← get_col_count self;
    result_matrix ← new_SparseMatrix rows cols;
    items ← get_data self;
    for_each items (λ '((row, col), val),
      set_element result_matrix row col val);;
    items ← get_data other_matrix;
    for_each items (λ '((row, col), val),
      current_val ← get_element result_matrix row col;
      set_element result_matrix row col (current_val + val));;
    mret result_matrix.

Definition subtract (self other_matrix : loc) : M loc :=
  r1 ← get_row_count self; r2 ← get_row_count other_matrix;
  c1 ← get_col_count self; c2 ← get_col_count other_matrix;
  if negb (r1 =? r2) || negb (c1 =? c2) then raise (ValueError msg_subtract)
  else
    rows ← get_row_count self; cols ← get_col_count self;
    result_matrix ← new_SparseMatrix rows cols;
    items ← get_data self;
    for_each items (λ '((row, col), val),
      set_element result_matrix row col val);;
    items ← get_data other_matrix;
    for_each items (λ '((row, col), val),
      current_val ← get_element result_matrix row col;
      set_element result_matrix row col (current_val - val));;
    mret result_matrix.

Definition multiply (self other_matrix : loc) : M loc :=
  c1 ← get_col_count self; r2 ← get_row_count other_matrix;
  if negb (c1 =? r2) then raise (ValueError msg_multiply)
  else
    r1 ← get_row_count self; c2 ← get_col_count other_matrix;
    result_matrix ← new_SparseMatrix r1 c2;
    items ← get_data self;
    for_each items (λ '((row, col), val),
      n ← get_col_count other_matrix;
      for_each (range n) (λ k,
        other_val ← get_element other_matrix col k;
        if negb (other_val =? 0) then
          current_val ← get_element result_matrix row k;
          set_element result_matrix row k (current_val + val * other_val)
        else mret tt));;
    mret result_matrix.

(** One line of [__str__] for an item of the dictionary. *)
Definition entry_line (it : key * Z) : str :=
  lit "(" ++ str_of_int it.1.1 ++ lit ", " ++ str_of_int it.1.2 ++ lit ", "
    ++ str_of_int it.2 ++ lit ")" ++ [LF].

(** [__str__] *)
Definition __str__ (self : loc) : M str :=
  rc ← get_row_count self; cc ← get_col_count self;
  let output := lit "rows=" ++ str_of_int rc ++ [LF] ++ lit "cols=" ++ str_of_int cc ++ [LF] in
  items ← get_data self;
  let output := fold_left (λ out it, out ++ entry_line it) items output in
  mret (strip output).

(** The files that [open] can read: a path has a content or does not exist. *)
Abbreviation filesystem := (str → option str).

Definition msg_not_enough_lines (file_path : str) : str :=
  lit "The file " ++ file_path ++ lit " does not have enough lines for matrix dimensions.".
Definition msg_bad_header (file_path : str) : str :=
  lit "Invalid format in file " ++ file_path ++ lit ". Expected 'rows=X' and 'cols=Y'.".
Definition msg_bad_entry (line_number : Z) (file_path line : str) : str :=
  lit "Invalid format at line " ++ str_of_int line_number ++ lit " in file "
    ++ file_path ++ lit ": " ++ line.

(** The body of the loop of [from_file] over the indices of the lines. *)
Definition from_file_entry (file_path : str) (lines : list str)
    (sparse_matrix : loc) (i : nat) : M unit :=
  let line := strip (lines !!! i) in
  if decide (line = []) then mret tt
  else
    match match_entry line with
    | None => raise (ValueError (msg_bad_entry (Z.of_nat i + 1) file_path line))
    | Some (g1, g2, g3) =>
        let row := int g1 in
        let col := int g2 in
        let value := int g3 in
        set_element sparse_matrix row col value
    end.

Definition from_file (fs : filesystem) (file_path : str) : M loc :=
  match fs file_path with
  | None => raise (FileNotFoundError (lit "File not found: " ++ file_path))
  | Some content =>
      let lines := readlines content in
      if (length lines <? 2)%nat then
        raise (ValueError (msg_not_enough_lines file_path))
      else
        match match_rows (strip (lines !!! 0%nat)), match_cols (strip (lines !!! 1%nat)) with
        | Some row_pattern, Some col_pattern =>
            let total_rows := int row_pattern in
            let total_cols := int col_pattern in
            sparse_matrix ← new_SparseMatrix total_rows total_cols;
            for_each (seq 2 (length lines - 2)) (from_file_entry file_path lines sparse_matrix);;
            mret sparse_matrix
        | _, _ => raise (ValueError (msg_bad_header file_path))
        end
  end.

(** ** What the methods do to one object

    The state transformers that the monadic methods apply to the object they
    write to.  They are used to state what a run of a method leaves in the
    store; the lemmas [*_run] below prove that they do. *)

Definition set_element_of (m : SparseMatrix) (row_idx col_idx value : Z) : SparseMatrix :=
  mkSparseMatrix
    (if row_idx >=? row_count m then row_idx + 1 else row_count m)
    (if col_idx >=? col_count m then col_idx + 1 else col_count m)
    (dict_set (data m) (row_idx, col_idx) value).

Definition get_element_of (m : SparseMatrix) (row_idx col_idx : Z) : Z :=
  dict_get (data m) (row_idx, col_idx) 0.

Definition copy_step (m : SparseMatrix) (it : key * Z) : SparseMatrix :=
  set_element_of m it.1.1 it.1.2 it.2.

Definition combine_step (op : Z → Z → Z) (m : SparseMatrix) (it : key * Z) : SparseMatrix :=
  set_element_of m it.1.1 it.1.2 (op (get_element_of m it.1.1 it.1.2) it.2).

Definition product_cell (B : SparseMatrix) (row col val : Z) (m : SparseMatrix) (k : Z) : SparseMatrix :=
  let other_val := get_element_of B col k in
  if negb (other_val =? 0) then
    set_element_of m row k (get_element_of m row k + val * other_val)
  else m.

Definition product_step (B : SparseMatrix) (m : SparseMatrix) (it : key * Z) : SparseMatrix :=
  fold_left (product_cell B it.1.1 it.1.2 it.2) (range (col_count B)) m.

Definition add_of (A B : SparseMatrix) : SparseMatrix :=
  fold_left (combine_step Z.add) (data B)
    (fold_left copy_step (data A) (mkSparseMatrix (row_count A) (col_count A) [])).

Definition subtract_of (A B : SparseMatrix) : SparseMatrix :=
  fold_left (combine_step Z.sub) (data B)
    (fold_left copy_step (data A) (mkSparseMatrix (row_count A) (col_count A) [])).

Definition multiply_of (A B : SparseMatrix) : SparseMatrix :=
  fold_left (product_step B) (data A) (mkSparseMatrix (row_count A) (col_count B) []).

(** What one round of the loop of [from_file] does to the matrix being
    loaded: the outcome and the matrix after it. *)
Definition entry_of (file_path : str) (lines : list str) (m : SparseMatrix) (i : nat)
    : result unit * SparseMatrix :=
  let line := strip (lines !!! i) in
  if decide (line = []) then (Ok tt, m)
  else
    match match_entry line with
    | None => (Raise (ValueError (msg_bad_entry (Z.of_nat i + 1) file_path line)), m)
    | Some (g1, g2, g3) => (Ok tt, set_element_of m (int g1) (int g2) (int g3))
    end.

(** A loop on one object that stops at the first exception. *)
Fixpoint fold_result {A} (g : SparseMatrix → A → result unit * SparseMatrix)
    (xs : list A) (m : SparseMatrix) : result unit * SparseMatrix :=
  match xs with
  | [] => (Ok tt, m)
  | x :: xs' =>
      match g m x with
      | (Ok _, m') => fold_result g xs' m'
      | (Raise e, m') => (Raise e, m')
      end
  end.

(** The loop of [from_file] on the matrix made from the header: the outcome
    and the matrix after it. *)
Definition loaded (file_path : str) (lines : list str) (rows cols : str)
    : result unit * SparseMatrix :=
  fold_result (entry_of file_path lines) (seq 2 (length lines - 2))
    (mkSparseMatrix (int rows) (int cols) []).

(** The text of [__str__] before the final [strip]. *)
Definition output_of (m : SparseMatrix) : str :=
  fold_left (λ out it, out ++ entry_line it) (data m)
    (lit "rows=" ++ str_of_int (row_count m) ++ [LF]
       ++ lit "cols=" ++ str_of_int (col_count m) ++ [LF]).

(** A file system with one file. *)
Definition single_file (path content : str) : filesystem :=
  λ p, if decide (p = path) then Some content else None.

(** ** The languages of the patterns *)

(** [\d+] *)
Definition digits (s : str) : Prop := s ≠ [] ∧ Forall (λ c, isdigit c = true) s.

(** [\s*] *)
Definition spaces (s : str) : Prop := Forall (λ c, isspace c = true) s.

(** [-?] *)
Definition sign (s : str) : Prop := s = [] ∨ s = ["-"%char].

(** The strings of which [\((\d+),\s*(\d+),\s*(-?\d+)\)] matches a prefix,
    with the three groups. *)
Definition entry_prefix (s g1 g2 g3 : str) : Prop :=
  ∃ w1 w2 sg d3 rest,
    digits g1 ∧ spaces w1 ∧ digits g2 ∧ spaces w2 ∧ sign sg ∧ digits d3 ∧
    g3 = sg ++ d3 ∧
    s = lit "(" ++ g1 ++ lit "," ++ w1 ++ g2 ++ lit "," ++ w2 ++ g3 ++ lit ")" ++ rest.



(** [strip] leaves [s] as it is, and [s] is not empty. *)
Definition trimmed (s : str) : Prop := s ≠ [] ∧ lstrip s = s ∧ rstrip s = s.

(** No line ending in [s]. *)
Definition plain (s : str) : Prop := Forall (λ c, c ≠ LF ∧ c ≠ CR) s.

(** The lines [ls], each but the last followed by a line feed. *)
Fixpoint join_lines (ls : list str) : str :=
  match ls with
  | [] => []
  | [s] => s
  | s :: ls' => s ++ LF :: join_lines ls'
  end.


(** The string [r] does not start with a character of the class [P]. *)
Definition starts_outside (P : ascii → bool) (r : str) : Prop :=
  match r with
  | c :: _ => P c = false
  | [] => True
  end.

(** The line of [__str__] for an item, without its line feed. *)
Definition entry_text (it : key * Z) : str :=
  lit "(" ++ str_of_int it.1.1 ++ lit ", " ++ str_of_int it.1.2 ++ lit ", "
    ++ str_of_int it.2 ++ lit ")".

(** The lines of [__str__], without their line feeds. *)
Definition text_lines (m : SparseMatrix) : list str :=
  (lit "rows=" ++ str_of_int (row_count m))
    :: (lit "cols=" ++ str_of_int (col_count m))
    :: (entry_text <$> data m).

(** ** Shapes and invariants *)

(** Every stored key lies below the counts. *)
Definition keys_below (m : SparseMatrix) : Prop :=
  ∀ r c v, ((r, c), v) ∈ data m → r < row_count m ∧ c < col_count m.

Definition keys_nonneg (m : SparseMatrix) : Prop :=
  ∀ r c v, ((r, c), v) ∈ data m → 0 ≤ r ∧ 0 ≤ c.

(** A matrix of the data model: a dictionary whose keys are coordinates of
    the shape. *)
Definition valid (m : SparseMatrix) : Prop :=
  dict_wf (data m) ∧ keys_nonneg m ∧ keys_below m.

(** What [from_file] builds from a text that it accepts: a dictionary with
    distinct keys, all of them coordinates of the shape. *)
Definition loadable (m : SparseMatrix) : Prop :=
  valid m ∧ 0 ≤ row_count m ∧ 0 ≤ col_count m.

(** [valid], as a test. *)
Definition validb (m : SparseMatrix) : bool :=
  bool_decide (NoDup (data m).*1)
  && forallb (λ it : key * Z,
       (0 <=? it.1.1) && (it.1.1 <? row_count m)
       && (0 <=? it.1.2) && (it.1.2 <? col_count m)) (data m).

(** The shape of [m] is [R] by [C]. *)
Definition same_shape (R C : Z) (m : SparseMatrix) : Prop :=
  row_count m = R ∧ col_count m = C.

Definition heap_keys_below (h : heap) : Prop :=
  ∀ l m, h !! l = Some m → keys_below m.

(** The sum of [f k] over the indices [k] of [ks]. *)
Definition sum_over {A} (ks : list A) (f : A → Z) : Z := foldr (λ k acc, f k + acc) 0 ks.

(** What the item [it] of the first operand adds to entry [(i, j)] of a
    product with [B]. *)
Definition contribution (B : SparseMatrix) (i j : Z) (it : key * Z) : Z :=
  if decide (it.1.1 = i) then it.2 * get_element_of B it.1.2 j else 0.

(** Entry [(i, j)] of the matrix product: the sum over [k < A.col_count]. *)
Definition dot (A B : SparseMatrix) (i j : Z) : Z :=
  sum_over (range (col_count A)) (λ k, get_element_of A i k * get_element_of B k j).

(** The outcome [out] of a binary method run in the store [h] on the
    operands [a] and [b], which held [A] and [B]: every object of [h] is as it
    was, the operands in particular, and the only write is the allocation of
    the result, when there is one. *)
Definition pure_call (h : heap) (a b : loc) (A B : SparseMatrix)
    (out : result loc * heap) : Prop :=
  out.2 !! a = Some A ∧ out.2 !! b = Some B ∧
  (∀ l m, h !! l = Some m → out.2 !! l = Some m) ∧
  match out.1 with
  | Ok l => h !! l = None ∧ ∃ R, out.2 = <[l := R]> h
  | Raise _ => out.2 = h
  end.

(** The items of [d] with every value replaced by 0. *)
Definition zero_out (d : dict) : dict := (λ it, (it.1, 0)) <$> d.

(** Every entry of [m] is at a position where a product of [A] and [B] has
    a factor of [B] that is not 0. *)
Definition product_keys (A B m : SparseMatrix) : Prop :=
  ∀ i j v, ((i, j), v) ∈ data m →
    0 ≤ j < col_count B ∧
    ∃ k x, ((i, k), x) ∈ data A ∧ get_element_of B k j ≠ 0.


(** What a text file holds once [write] has translated the line feeds of
    [s] into the line separator [linesep] of the platform. *)
Definition newline_out (linesep : str) (s : str) : str :=
  flat_map (λ c, if Ascii.eqb c LF then linesep else [c]) s.

(** ** The script: files, the console and [perform_calculations]

    [save_to_file] writes a file and [perform_calculations] reads the
    keyboard and prints, so they run in a world made of the files, the lines
    that [input] has still to read, the text printed so far and the store of
    objects.  A file is its content; [open(path, "w")] always succeeds. *)

Record world := mkWorld {
  files : filesystem;
  stdin : list str;  (* the lines to read, without their line ends *)
  stdout : str;
  store : heap
}.

(** The exceptions that reach [perform_calculations]: those of the methods,
    and the one of [input] at the end of the input. *)
Inductive exception :=
  | MethodError (e : exn)
  | EOFError.

Inductive outcome (A : Type) :=
  | Done (a : A)
  | Failed (e : exception).
Arguments Done {A} a.
Arguments Failed {A} e.

Definition IO (A : Type) : Type := world → outcome A * world.

#[export] Instance IO_ret : MRet IO := λ A a w, (Done a, w).

#[export] Instance IO_bind : MBind IO := λ A B f m w,
  match m w with
  | (Done a, w') => f a w'
  | (Failed e, w') => (Failed e, w')
  end.

Definition throw {A} (e : exception) : IO A := λ w, (Failed e, w).

(** A method call: it runs on the store of the world. *)
Definition call {A} (m : M A) : IO A := λ w,
  match m (store w) with
  | (Ok a, h) => (Done a, mkWorld (files w) (stdin w) (stdout w) h)
  | (Raise e, h) => (Failed (MethodError e), mkWorld (files w) (stdin w) (stdout w) h)
  end.

(** A method call that opens files for reading. *)
Definition call_fs {A} (m : filesystem → M A) : IO A := λ w, call (m (files w)) w.

(** [print(s)] *)
Definition print (s : str) : IO unit := λ w,
  (Done tt, mkWorld (files w) (stdin w) (stdout w ++ s ++ [LF]) (store w)).

(** [input(prompt)]: the prompt is printed, then a line is read. *)
Definition input (prompt : str) : IO str := λ w,
  match stdin w with
  | line :: rest => (Done line, mkWorld (files w) rest (stdout w ++ prompt) (store w))
  | [] => (Failed EOFError, mkWorld (files w) [] (stdout w ++ prompt) (store w))
  end.

(** The files after [path] has been given the content [content]. *)
Definition file_write (fs : filesystem) (path content : str) : filesystem :=
  λ p, if decide (p = path) then Some content else fs p.

(** [with open(path, "w") as file: file.write(content)] *)
Definition write_text (linesep path content : str) : IO unit := λ w,
  (Done tt,
   mkWorld (file_write (files w) path (newline_out linesep content))
     (stdin w) (stdout w) (store w)).

Definition save_to_file (linesep : str) (self : loc) (output_path : str) : IO unit :=
  content ← call (__str__ self);
  write_text linesep output_path content.

(** [str(error)] *)
Definition exception_str (error : exception) : str :=
  match error with
  | MethodError (ValueError msg) => msg
  | MethodError (FileNotFoundError msg) => msg
  | MethodError NoSuchObject => []
  | EOFError => lit "EOF when reading a line"
  end.

(** [try: body except Exception as error: handler(error)] *)
Definition try_except {A} (body : IO A) (handler : exception → IO A) : IO A := λ w,
  match body w with
  | (Done a, w') => (Done a, w')
  | (Failed error, w') => handler error w'
  end.

Fixpoint for_each_io {A} (xs : list A) (body : A → IO unit) : IO unit :=
  match xs with
  | [] => mret tt
  | x :: xs' => body x;; for_each_io xs' body
  end.

(** The dictionary [operations]: for each key the name and the method that
    [getattr] finds under the method's name. *)
Definition operations : list (str * (str * (loc → loc → M loc))) :=
  [ (lit "1", (lit "subtraction", subtract));
    (lit "2", (lit "multiplication", multiply));
    (lit "3", (lit "addition", add)) ].

(** [operations.get(key)] *)
Fixpoint operations_get {V} (d : list (str * V)) (k : str) : option V :=
  match d with
  | (k', v) :: d' => if decide (k' = k) then Some v else operations_get d' k
  | [] => None
  end.

Definition result_path : str := lit "result.txt".

(** The body of the [try] of [perform_calculations]. *)
Definition calculations (linesep : str) : IO unit :=
  print (lit "Available operations:");;
  for_each_io operations (λ '(key, op), print (key ++ lit ": " ++ op.1));;
  first_matrix_path ← input (lit "Enter the file path for the first matrix: ");
  matrix1 ← call_fs (λ fs, from_file fs first_matrix_path);
  print (lit "1st matrix loaded successfully." ++ [LF]);;
  second_matrix_path ← input (lit "Enter the file path for the second matrix: ");
  matrix2 ← call_fs (λ fs, from_file fs second_matrix_path);
  print (lit "2nd matrix loaded successfully." ++ [LF]);;
  operation_choice ← input (lit "Choose an operation (1, 2, or 3): ");
  match operations_get operations operation_choice with
  | None => throw (MethodError (ValueError (lit "Invalid operation choice.")))
  | Some selected_operation =>
      result_matrix ← call (selected_operation.2 matrix1 matrix2);
      text ← call (__str__ result_matrix);
      print (lit "Output of " ++ selected_operation.1 ++ lit " operation:" ++ [LF] ++ text);;
      let output_file_path := result_path in
      save_to_file linesep result_matrix output_file_path;;
      print (lit "Output file saved at: " ++ output_file_path)
  end.

Definition perform_calculations (linesep : str) : IO unit :=
  try_except (calculations linesep)
    (λ error, print (lit "Error: " ++ exception_str error)).

(** What the script prints before it asks for the first path. *)
Definition menu_text : str :=
  lit "Available operations:" ++ [LF]
    ++ lit "1: subtraction" ++ [LF]
    ++ lit "2: multiplication" ++ [LF]
    ++ lit "3: addition" ++ [LF]
    ++ lit "Enter the file path for the first matrix: ".

(** What the script prints from the first path to the question of the
    operation, when both files load. *)
Definition loaded_text : str :=
  lit "1st matrix loaded successfully." ++ [LF; LF]
    ++ lit "Enter the file path for the second matrix: "
    ++ lit "2nd matrix loaded successfully." ++ [LF; LF]
    ++ lit "Choose an operation (1, 2, or 3): ".

(** A computation that leaves the files as they are. *)
Definition keeps_files {A} (m : IO A) : Prop := ∀ w, files (m w).2 = files w.

(** A computation that, when it fails, has left the files as they were, and
    when it finishes has written [result_path] and nothing else, and printed
    last where the output is. *)
Definition ends_well (m : IO unit) : Prop :=
  ∀ w, match m w with
       | (Failed _, w') => files w' = files w
       | (Done _, w') =>
           ∃ text pre,
             files w' = file_write (files w) result_path text ∧
             stdout w' = pre ++ lit "Output file saved at: result.txt" ++ [LF]
       end.


(** ** Sample objects *)

Definition ex_A : SparseMatrix := mkSparseMatrix 1 2 [((0, 0), 1); ((0, 1), 2)].
Definition ex_B : SparseMatrix := mkSparseMatrix 2 1 [((0, 0), 3); ((1, 0), 4)].
Definition ex_C : SparseMatrix := mkSparseMatrix 1 2 [((0, 1), 5)].
Definition ex_heap : heap := <[2%nat := ex_C]> (<[1%nat := ex_B]> (<[0%nat := ex_A]> ∅)).

Definition ex_2x3 : SparseMatrix := mkSparseMatrix 2 3 [((1, 2), 7)].
Definition ex_4x2 : SparseMatrix := mkSparseMatrix 4 2 [((3, 1), 1); ((0, 0), 2)].
Definition ex_heap_mismatch : heap := <[1%nat := ex_4x2]> (<[0%nat := ex_2x3]> ∅).

Definition ex_E : SparseMatrix := mkSparseMatrix 1 2 [].
Definition ex_heap_empty : heap := <[1%nat := ex_E]> (<[0%nat := ex_A]> ∅).

(** A matrix after [set_element] at a negative row, and its text. *)
Definition ex_negative : SparseMatrix := mkSparseMatrix 1 1 [((0, 0), 1); ((-1, 0), 5)].
Definition ex_negative_text : str :=
  lit "rows=1" ++ [LF] ++ lit "cols=1" ++ [LF] ++ lit "(0, 0, 1)" ++ [LF] ++ lit "(-1, 0, 5)".

(** Files for the script and what the user types. *)
Definition ex_files : filesystem :=
  λ p, if decide (p = lit "a.txt") then Some (lit "rows=1" ++ [LF] ++ lit "cols=2" ++ [LF]
                                              ++ lit "(0, 0, 1)" ++ [LF] ++ lit "(0, 1, 2)" ++ [LF])
       else if decide (p = lit "b.txt") then Some (lit "rows=2" ++ [LF] ++ lit "cols=1" ++ [LF]
                                              ++ lit "(0, 0, 3)" ++ [LF] ++ lit "(1, 0, 4)")
       else if decide (p = lit "c.txt") then Some (lit "rows=1" ++ [LF] ++ lit "cols=2" ++ [LF]
                                              ++ lit "(0, 1, 5)")
       else None.

Definition ex_world (typed : list str) : world := mkWorld ex_files typed [] ∅.


Definition ex_path : str := lit "matrix.txt".

Definition ex_text : str :=
  lit "rows=2" ++ [LF] ++ lit "cols=3" ++ [LF] ++ lit "(0, 1, -5)" ++ [LF]
    ++ [LF] ++ lit "(4,2,  007)" ++ [LF].

Definition ex_loaded : SparseMatrix := mkSparseMatrix 5 3 [((0, 1), -5); ((4, 2), 7)].


(** ** Running the methods *)

Lemma bind_run {A B} (m : M A) (f : A → M B) (h : heap) :
  (m ≫= f) h = match m h with (Ok a, h') => f a h' | (Raise e, h') => (Raise e, h') end.
Proof. reflexivity. Qed.

Lemma deref_run (l : loc) (m : SparseMatrix) (h : heap) :
  h !! l = Some m → deref l h = (Ok m, h).
Proof. intros E. unfold deref. now rewrite E. Qed.

Lemma ret_run {A} (a : A) (h : heap) : (mret a : M A) h = (Ok a, h).
Proof. reflexivity. Qed.

Section attributes.
Context (l : loc) (m : SparseMatrix) (h : heap) (E : h !! l = Some m).

Lemma get_row_count_run : get_row_count l h = (Ok (row_count m), h).
Proof using E. unfold get_row_count. now rewrite bind_run, (deref_run _ _ _ E). Qed.

Lemma get_col_count_run : get_col_count l h = (Ok (col_count m), h).
Proof using E. unfold get_col_count. now rewrite bind_run, (deref_run _ _ _ E). Qed.

Lemma get_data_run : get_data l h = (Ok (data m), h).
Proof using E. unfold get_data. now rewrite bind_run, (deref_run _ _ _ E). Qed.

Lemma set_row_count_run v :
  set_row_count l v h = (Ok tt, <[l := mkSparseMatrix v (col_count m) (data m)]> h).
Proof using E. unfold set_row_count. now rewrite bind_run, (deref_run _ _ _ E). Qed.

Lemma set_col_count_run v :
  set_col_count l v h = (Ok tt, <[l := mkSparseMatrix (row_count m) v (data m)]> h).
Proof using E. unfold set_col_count. now rewrite bind_run, (deref_run _ _ _ E). Qed.

Lemma set_data_run d :
  set_data l d h = (Ok tt, <[l := mkSparseMatrix (row_count m) (col_count m) d]> h).
Proof using E. unfold set_data. now rewrite bind_run, (deref_run _ _ _ E). Qed.
End attributes.

Lemma alloc_run (m : SparseMatrix) (h : heap) :
  alloc m h = (Ok (fresh (dom h)), <[fresh (dom h) := m]> h) ∧ h !! fresh (dom h) = None.
Proof. split; [reflexivity|]. apply not_elem_of_dom, is_fresh. Qed.

(** Solves the side condition of the lemmas above: what the store holds. *)
Ltac held :=
  first [ eassumption | apply lookup_insert_eq
        | rewrite lookup_insert_ne by congruence; eassumption ].

(** One step of a run: the next attribute access, with the store known. *)
Ltac run_step :=
  rewrite bind_run;
  first [ erewrite get_row_count_run by held | erewrite get_col_count_run by held
        | erewrite get_data_run by held | erewrite set_row_count_run by held
        | erewrite set_col_count_run by held | erewrite set_data_run by held
        | rewrite ret_run ];
  cbn [row_count col_count data].

Lemma get_element_run (l : loc) (m : SparseMatrix) (h : heap) (r c : Z) :
  h !! l = Some m → get_element l r c h = (Ok (get_element_of m r c), h).
Proof. intros E. unfold get_element. now run_step. Qed.

Lemma set_element_run (l : loc) (m : SparseMatrix) (h : heap) (r c v : Z) :
  h !! l = Some m →
  set_element l r c v h = (Ok tt, <[l := set_element_of m r c v]> h).
Proof.
  intros E. unfold set_element, set_element_of. run_step.
  destruct (r >=? row_count m); run_step; run_step;
    destruct (c >=? col_count m); run_step; run_step;
    erewrite set_data_run by held; cbn [row_count col_count data];
    rewrite ?insert_insert_eq; reflexivity.
Qed.

(** A loop whose body rewrites the object at [l] by [f], on stores that
    satisfy an invariant [P] which writing to [l] preserves. *)
Lemma for_each_run {A} (P : heap → Prop) (l : loc) (f : SparseMatrix → A → SparseMatrix)
    (body : A → M unit) (xs : list A) :
  (∀ h m, P h → P (<[l := m]> h)) →
  (∀ x h m, P h → h !! l = Some m → body x h = (Ok tt, <[l := f m x]> h)) →
  ∀ h m, P h → h !! l = Some m →
    for_each xs body h = (Ok tt, <[l := fold_left f xs m]> h).
Proof.
  intros HP Hbody. induction xs as [|x xs IH]; intros h m Ph E; cbn.
  - unfold mret, M_ret. now rewrite insert_id.
  - rewrite bind_run, (Hbody x h m Ph E).
    rewrite (IH _ (f m x)); [|now apply HP|apply lookup_insert_eq].
    now rewrite insert_insert_eq.
Qed.

Lemma copy_loop_run (l : loc) (items : dict) (h : heap) (m : SparseMatrix) :
  h !! l = Some m →
  for_each items (λ '((row, col), val), set_element l row col val) h
  = (Ok tt, <[l := fold_left copy_step items m]> h).
Proof.
  apply (for_each_run (λ _, True) l copy_step); [done| |done].
  intros [[row col] val] h' m' _ E. now apply set_element_run.
Qed.

Lemma combine_loop_run (op : Z → Z → Z) (l : loc) (items : dict) (h : heap) (m : SparseMatrix) :
  h !! l = Some m →
  for_each items (λ '((row, col), val),
    current_val ← get_element l row col;
    set_element l row col (op current_val val)) h
  = (Ok tt, <[l := fold_left (combine_step op) items m]> h).
Proof.
  apply (for_each_run (λ _, True) l (combine_step op)); [done| |done].
  intros [[row col] val] h' m' _ E.
  rewrite bind_run, (get_element_run _ _ _ _ _ E). now apply set_element_run.
Qed.

Lemma product_loop_run (l b : loc) (B : SparseMatrix) (items : dict) (h : heap) (m : SparseMatrix) :
  l ≠ b → h !! b = Some B → h !! l = Some m →
  for_each items (λ '((row, col), val),
    n ← get_col_count b;
    for_each (range n) (λ k,
      other_val ← get_element b col k;
      if negb (other_val =? 0) then
        current_val ← get_element l row k;
        set_element l row k (current_val + val * other_val)
      else mret tt)) h
  = (Ok tt, <[l := fold_left (product_step B) items m]> h).
Proof.
  intros Hne. revert h m.
  assert (Hkeep : ∀ (h : heap) m', h !! b = Some B → <[l := m']> h !! b = Some B)
    by (intros; now rewrite lookup_insert_ne).
  apply (for_each_run (λ h, h !! b = Some B) l (product_step B)); [exact Hkeep|].
  intros [[row col] val] h m Eb El. run_step.
  unfold product_step; cbn [fst snd].
  revert h m Eb El.
  apply (for_each_run (λ h, h !! b = Some B) l (product_cell B row col val)); [exact Hkeep|].
  intros k h m Eb El. unfold product_cell.
  rewrite bind_run, (get_element_run _ _ _ _ _ Eb).
  destruct (negb (get_element_of B col k =? 0)).
  - rewrite bind_run, (get_element_run _ _ _ _ _ El). now apply set_element_run.
  - rewrite ret_run. now rewrite insert_id.
Qed.

(** [add] and [subtract] differ in the message and in the operation only. *)
Lemma add_run (a b : loc) (A B : SparseMatrix) (h : heap) :
  h !! a = Some A → h !! b = Some B →
  add a b h =
    if negb (row_count A =? row_count B) || negb (col_count A =? col_count B)
    then (Raise (ValueError msg_add), h)
    else (Ok (fresh (dom h)), <[fresh (dom h) := add_of A B]> h).
Proof.
  intros Ea Eb. unfold add. do 4 run_step.
  destruct (negb (row_count A =? row_count B) || negb (col_count A =? col_count B));
    [reflexivity|].
  do 2 run_step. unfold new_SparseMatrix. rewrite bind_run.
  destruct (alloc_run (mkSparseMatrix (row_count A) (col_count A) []) h) as [-> Hl].
  set (l := fresh (dom h)) in *. run_step.
  rewrite bind_run. erewrite copy_loop_run by held.
  rewrite insert_insert_eq. run_step.
  rewrite bind_run. erewrite combine_loop_run by held.
  rewrite insert_insert_eq. reflexivity.
Qed.

Lemma subtract_run (a b : loc) (A B : SparseMatrix) (h : heap) :
  h !! a = Some A → h !! b = Some B →
  subtract a b h =
    if negb (row_count A =? row_count B) || negb (col_count A =? col_count B)
    then (Raise (ValueError msg_subtract), h)
    else (Ok (fresh (dom h)), <[fresh (dom h) := subtract_of A B]> h).
Proof.
  intros Ea Eb. unfold subtract. do 4 run_step.
  destruct (negb (row_count A =? row_count B) || negb (col_count A =? col_count B));
    [reflexivity|].
  do 2 run_step. unfold new_SparseMatrix. rewrite bind_run.
  destruct (alloc_run (mkSparseMatrix (row_count A) (col_count A) []) h) as [-> Hl].
  set (l := fresh (dom h)) in *. run_step.
  rewrite bind_run. erewrite copy_loop_run by held.
  rewrite insert_insert_eq. run_step.
  rewrite bind_run. erewrite (combine_loop_run Z.sub) by held.
  rewrite insert_insert_eq. reflexivity.
Qed.

Lemma multiply_run (a b : loc) (A B : SparseMatrix) (h : heap) :
  h !! a = Some A → h !! b = Some B →
  multiply a b h =
    if negb (col_count A =? row_count B)
    then (Raise (ValueError msg_multiply), h)
    else (Ok (fresh (dom h)), <[fresh (dom h) := multiply_of A B]> h).
Proof.
  intros Ea Eb. unfold multiply. do 2 run_step.
  destruct (negb (col_count A =? row_count B)); [reflexivity|].
  do 2 run_step.
  unfold new_SparseMatrix. rewrite bind_run.
  destruct (alloc_run (mkSparseMatrix (row_count A) (col_count B) []) h) as [-> Hl].
  set (l := fresh (dom h)) in *. run_step.
  rewrite bind_run. erewrite (product_loop_run l b B) by (held || congruence).
  rewrite insert_insert_eq. reflexivity.
Qed.

(** ** Dictionaries: reading after writing *)

Lemma dict_get_set_eq (d : dict) (k : key) (v default : Z) :
  dict_get (dict_set d k v) k default = v.
Proof.
  induction d as [|[k' v'] d IH]; cbn.
  - now rewrite decide_True.
  - destruct (decide (k' = k)) as [->|Hne]; cbn.
    + now rewrite decide_True.
    + now rewrite decide_False.
Qed.

Lemma dict_get_set_ne (d : dict) (k k' : key) (v default : Z) :
  k ≠ k' → dict_get (dict_set d k v) k' default = dict_get d k' default.
Proof.
  intros Hne. induction d as [|[k0 v0] d IH]; cbn.
  - now rewrite decide_False.
  - destruct (decide (k0 = k)) as [->|Hk]; cbn.
    + now rewrite !decide_False.
    + now rewrite IH.
Qed.

Lemma dict_get_absent (d : dict) (k : key) (default : Z) :
  k ∉ d.*1 → dict_get d k default = default.
Proof.
  induction d as [|[k' v'] d IH]; cbn; [done|].
  intros Hk. apply not_elem_of_cons in Hk as [Hne Hk].
  rewrite decide_False by congruence. auto.
Qed.

Lemma dict_set_elem (d : dict) (k : key) (v : Z) (it : key * Z) :
  it ∈ dict_set d k v → it = (k, v) ∨ it ∈ d.
Proof.
  induction d as [|[k' v'] d IH]; cbn.
  - intros Hin. apply list_elem_of_singleton in Hin. now left.
  - destruct (decide (k' = k)) as [->|Hne]; intros Hin;
      apply elem_of_cons in Hin as [->|Hin]; auto using list_elem_of_here.
    + right. now apply list_elem_of_further.
    + destruct (IH Hin); auto. right. now apply list_elem_of_further.
Qed.

Lemma dict_set_has (d : dict) (k : key) (v : Z) : (k, v) ∈ dict_set d k v.
Proof.
  induction d as [|[k' v'] d IH]; cbn; [apply list_elem_of_here|].
  destruct (decide (k' = k)) as [->|Hne];
    [apply list_elem_of_here | now apply list_elem_of_further].
Qed.

Lemma dict_set_keys (d : dict) (k k' : key) (v : Z) :
  k' ∈ (dict_set d k v).*1 ↔ k' = k ∨ k' ∈ d.*1.
Proof.
  induction d as [|[k0 v0] d IH]; cbn.
  - rewrite list_elem_of_singleton. rewrite elem_of_nil. tauto.
  - destruct (decide (k0 = k)) as [->|Hne]; cbn; rewrite !elem_of_cons.
    + tauto.
    + rewrite IH. tauto.
Qed.

Lemma dict_set_wf (d : dict) (k : key) (v : Z) : dict_wf d → dict_wf (dict_set d k v).
Proof.
  unfold dict_wf. induction d as [|[k' v'] d IH]; cbn; intros Hwf.
  - apply NoDup_singleton.
  - apply NoDup_cons in Hwf as [Hk' Hwf].
    destruct (decide (k' = k)) as [->|Hne]; cbn; apply NoDup_cons; split; auto.
    rewrite dict_set_keys. intros [?|?]; congruence.
Qed.

(** Writing the items of a well-formed dictionary into an empty one, in
    order, rebuilds it. *)
Lemma dict_set_append (d : dict) (k : key) (v : Z) :
  k ∉ d.*1 → dict_set d k v = d ++ [(k, v)].
Proof.
  induction d as [|[k' v'] d IH]; cbn; [done|].
  intros Hk. apply not_elem_of_cons in Hk as [Hne Hk].
  rewrite decide_False by congruence. now rewrite IH.
Qed.

(** ** One object: reading after writing *)

Lemma get_set_eq (m : SparseMatrix) (r c v : Z) :
  get_element_of (set_element_of m r c v) r c = v.
Proof. apply dict_get_set_eq. Qed.

Lemma get_set_ne (m : SparseMatrix) (r c v r' c' : Z) :
  (r, c) ≠ (r', c') →
  get_element_of (set_element_of m r c v) r' c' = get_element_of m r' c'.
Proof. apply dict_get_set_ne. Qed.

Lemma copy_loop_untouched (items : dict) (m : SparseMatrix) (r c : Z) :
  (r, c) ∉ items.*1 →
  get_element_of (fold_left copy_step items m) r c = get_element_of m r c.
Proof.
  revert m. induction items as [|[[r' c'] v'] items IH]; cbn; intros m Hk; [done|].
  apply not_elem_of_cons in Hk as [Hne Hk].
  rewrite IH by done. unfold copy_step; cbn [fst snd]. apply get_set_ne. congruence.
Qed.

Lemma copy_loop_get (items : dict) (m : SparseMatrix) (r c : Z) :
  dict_wf items →
  get_element_of (fold_left copy_step items m) r c
  = dict_get items (r, c) (get_element_of m r c).
Proof.
  unfold dict_wf. revert m.
  induction items as [|[[r' c'] v'] items IH]; cbn; intros m Hwf; [done|].
  apply NoDup_cons in Hwf as [Hk Hwf]. rewrite IH by done.
  unfold copy_step; cbn [fst snd]. destruct (decide ((r', c') = (r, c))) as [Heq|Hne].
  - inversion Heq; subst. rewrite get_set_eq. now apply dict_get_absent.
  - now rewrite get_set_ne.
Qed.

Lemma add_loop_get (items : dict) (m : SparseMatrix) (r c : Z) :
  dict_wf items →
  get_element_of (fold_left (combine_step Z.add) items m) r c
  = get_element_of m r c + dict_get items (r, c) 0.
Proof.
  unfold dict_wf. revert m.
  induction items as [|[[r' c'] v'] items IH]; cbn; intros m Hwf; [lia|].
  apply NoDup_cons in Hwf as [Hk Hwf]. rewrite IH by done.
  unfold combine_step; cbn [fst snd]. destruct (decide ((r', c') = (r, c))) as [Heq|Hne].
  - inversion Heq; subst. rewrite get_set_eq, dict_get_absent by done. lia.
  - now rewrite get_set_ne.
Qed.

Lemma add_of_get (A B : SparseMatrix) (r c : Z) :
  dict_wf (data A) → dict_wf (data B) →
  get_element_of (add_of A B) r c = get_element_of A r c + get_element_of B r c.
Proof.
  intros HA HB. unfold add_of. rewrite add_loop_get, copy_loop_get by done.
  reflexivity.
Qed.

(** ** The bound on stored keys *)

Lemma keys_below_set (m : SparseMatrix) (r c v : Z) :
  keys_below m → keys_below (set_element_of m r c v).
Proof.
  intros Hm r' c' v' Hin. unfold set_element_of in *; cbn in *.
  apply dict_set_elem in Hin as [Heq|Hin].
  - inversion Heq; subst. split.
    + destruct (Z.geb_spec r (row_count m)); lia.
    + destruct (Z.geb_spec c (col_count m)); lia.
  - destruct (Hm _ _ _ Hin). split.
    + destruct (Z.geb_spec r (row_count m)); lia.
    + destruct (Z.geb_spec c (col_count m)); lia.
Qed.

Lemma fold_left_inv {A S} (P : S → Prop) (f : S → A → S) (xs : list A) :
  (∀ m x, x ∈ xs → P m → P (f m x)) → ∀ m, P m → P (fold_left f xs m).
Proof.
  induction xs as [|x xs IH]; cbn; intros Hf m Hm; [done|].
  apply IH.
  - intros m' x' Hx'. apply Hf. now apply list_elem_of_further.
  - apply Hf; [apply list_elem_of_here | done].
Qed.

Lemma keys_below_empty (r c : Z) : keys_below (mkSparseMatrix r c []).
Proof. intros r' c' v' Hin. now apply elem_of_nil in Hin. Qed.

Lemma keys_below_product_cell (B : SparseMatrix) (row col val : Z) (m : SparseMatrix) (k : Z) :
  keys_below m → keys_below (product_cell B row col val m k).
Proof.
  intros Hm. unfold product_cell.
  destruct (negb _); [now apply keys_below_set | done].
Qed.

Lemma keys_below_add_of (A B : SparseMatrix) : keys_below (add_of A B).
Proof.
  unfold add_of. apply fold_left_inv; [intros; now apply keys_below_set|].
  apply fold_left_inv; [intros; now apply keys_below_set|].
  apply keys_below_empty.
Qed.

Lemma keys_below_subtract_of (A B : SparseMatrix) : keys_below (subtract_of A B).
Proof.
  unfold subtract_of. apply fold_left_inv; [intros; now apply keys_below_set|].
  apply fold_left_inv; [intros; now apply keys_below_set|].
  apply keys_below_empty.
Qed.

Lemma keys_below_multiply_of (A B : SparseMatrix) : keys_below (multiply_of A B).
Proof.
  unfold multiply_of. apply fold_left_inv; [|apply keys_below_empty].
  intros m x _ Hm. unfold product_step. apply fold_left_inv; [|done].
  intros. now apply keys_below_product_cell.
Qed.

Lemma heap_keys_below_insert (h : heap) (l : loc) (m : SparseMatrix) :
  heap_keys_below h → keys_below m → heap_keys_below (<[l := m]> h).
Proof.
  intros Hh Hm l' m'. rewrite lookup_insert. case_decide.
  - now intros [= <-].
  - apply Hh.
Qed.

(** ** Sums *)

Lemma sum_over_nil {A} (f : A → Z) : sum_over [] f = 0.
Proof. reflexivity. Qed.

Lemma sum_over_cons {A} (k : A) (ks : list A) (f : A → Z) :
  sum_over (k :: ks) f = f k + sum_over ks f.
Proof. reflexivity. Qed.

Lemma sum_over_ext {A} (ks : list A) (f g : A → Z) :
  (∀ k, k ∈ ks → f k = g k) → sum_over ks f = sum_over ks g.
Proof.
  induction ks as [|k ks IH]; intros H; [done|].
  rewrite !sum_over_cons, (H k) by apply list_elem_of_here.
  rewrite IH; [done|]. intros k' Hk'. apply H. now apply list_elem_of_further.
Qed.

Lemma sum_over_plus {A} (ks : list A) (f g : A → Z) :
  sum_over ks (λ k, f k + g k) = sum_over ks f + sum_over ks g.
Proof.
  induction ks as [|k ks IH]; [done|]. rewrite !sum_over_cons, IH. lia.
Qed.

Lemma sum_over_zero {A} (ks : list A) (f : A → Z) :
  (∀ k, k ∈ ks → f k = 0) → sum_over ks f = 0.
Proof.
  induction ks as [|k ks IH]; intros H; [done|].
  rewrite sum_over_cons, (H k) by apply list_elem_of_here.
  rewrite IH; [done|]. intros k' Hk'. apply H. now apply list_elem_of_further.
Qed.

(** Changing one factor at a single index [c] changes the sum by the
    difference there. *)
Lemma sum_over_point (ks : list Z) (f f' g : Z → Z) (c : Z) :
  NoDup ks → c ∈ ks → (∀ k, k ≠ c → f' k = f k) →
  sum_over ks (λ k, f' k * g k) = sum_over ks (λ k, f k * g k) + (f' c - f c) * g c.
Proof.
  intros Hnd Hc Hf. induction ks as [|k ks IH].
  - now apply elem_of_nil in Hc.
  - rewrite !sum_over_cons.
    apply NoDup_cons in Hnd as [Hk Hnd]. destruct (decide (k = c)) as [->|Hne].
    + rewrite (sum_over_ext ks (λ k, f' k * g k) (λ k, f k * g k)); [ring|].
      intros k' Hk'. rewrite Hf; [done|]. intros ->. contradiction.
    + apply elem_of_cons in Hc as [->|Hc]; [done|].
      rewrite IH by done. rewrite (Hf k Hne). ring.
Qed.

(** ** The product, entry by entry *)

Lemma product_cell_get (B : SparseMatrix) (row col val : Z) (m : SparseMatrix) (k i j : Z) :
  get_element_of (product_cell B row col val m k) i j
  = get_element_of m i j
    + (if decide (row = i ∧ k = j) then val * get_element_of B col j else 0).
Proof.
  unfold product_cell. destruct (Z.eqb_spec (get_element_of B col k) 0) as [H0|H0]; cbn [negb].
  - case_decide as Hd; [|lia]. destruct Hd as [_ <-]. rewrite H0. lia.
  - case_decide as Hd.
    + destruct Hd as [<- <-]. now rewrite get_set_eq.
    + rewrite get_set_ne; [lia|]. intros [= -> ->]. tauto.
Qed.

Lemma product_cells_get (B : SparseMatrix) (row col val : Z) (ks : list Z) (m : SparseMatrix) (i j : Z) :
  NoDup ks →
  get_element_of (fold_left (product_cell B row col val) ks m) i j
  = get_element_of m i j
    + (if decide (row = i ∧ j ∈ ks) then val * get_element_of B col j else 0).
Proof.
  revert m. induction ks as [|k ks IH]; cbn; intros m Hnd.
  - case_decide as Hd; [|lia]. destruct Hd as [_ Hd]. now apply elem_of_nil in Hd.
  - apply NoDup_cons in Hnd as [Hk Hnd]. rewrite IH by done.
    rewrite product_cell_get.
    repeat case_decide; try lia;
      repeat match goal with
             | H : _ ∧ _ |- _ => destruct H
             | H : _ ∈ _ :: _ |- _ => apply elem_of_cons in H as [?|?]
             end; subst; try contradiction;
      exfalso; eauto using list_elem_of_here, list_elem_of_further.
Qed.

Lemma product_fold_get (B : SparseMatrix) (items : dict) (m : SparseMatrix) (i j : Z) :
  0 ≤ j < col_count B →
  get_element_of (fold_left (product_step B) items m) i j
  = get_element_of m i j + sum_over items (contribution B i j).
Proof.
  intros Hj. revert m. induction items as [|[[row col] val] items IH]; intros m;
    [rewrite sum_over_nil; cbn; lia|].
  rewrite sum_over_cons. cbn [fold_left].
  rewrite IH. unfold product_step; cbn [fst snd].
  rewrite product_cells_get by apply NoDup_seqZ.
  change (contribution B i j (row, col, val))
    with (if decide (row = i) then val * get_element_of B col j else 0).
  assert (Hin : j ∈ seqZ 0 (col_count B)) by (apply elem_of_seqZ; lia).
  unfold range. repeat case_decide; try lia; tauto.
Qed.

Lemma product_fold_get_outside (B : SparseMatrix) (items : dict) (m : SparseMatrix) (i j : Z) :
  ¬ (0 ≤ j < col_count B) →
  get_element_of (fold_left (product_step B) items m) i j = get_element_of m i j.
Proof.
  intros Hj. revert m. induction items as [|[[row col] val] items IH]; cbn; intros m; [done|].
  rewrite IH. unfold product_step; cbn [fst snd].
  rewrite product_cells_get by apply NoDup_seqZ.
  case_decide as Hd; [|lia]. destruct Hd as [_ Hd].
  unfold range in Hd. apply elem_of_seqZ in Hd. lia.
Qed.

(** The contributions of the items of row [i] add up to the sum over the
    column indices. *)
Lemma contributions_dot (B : SparseMatrix) (items : dict) (ks : list Z) (i j : Z) :
  dict_wf items → NoDup ks →
  (∀ r c v, ((r, c), v) ∈ items → c ∈ ks) →
  sum_over items (contribution B i j)
  = sum_over ks (λ k, dict_get items (i, k) 0 * get_element_of B k j).
Proof.
  unfold dict_wf. intros Hwf Hks.
  induction items as [|[[row col] val] items IH]; intros Hin.
  - symmetry. now apply sum_over_zero.
  - rewrite sum_over_cons. cbn in Hwf. cbn [dict_get].
    apply NoDup_cons in Hwf as [Hk Hwf].
    rewrite IH; [|done|intros r c v H; apply (Hin r c v); now apply list_elem_of_further].
    unfold contribution; cbn [fst snd]. case_decide as Hd.
    + subst row.
      rewrite (sum_over_point ks (λ k, dict_get items (i, k) 0)
                 (λ k, if decide ((i, col) = (i, k)) then val else dict_get items (i, k) 0)
                 (λ k, get_element_of B k j) col); [| done | | ].
      * rewrite decide_True by done. rewrite (dict_get_absent items (i, col)) by done. ring.
      * apply (Hin i col val). apply list_elem_of_here.
      * intros k Hne. rewrite decide_False; [done|]. congruence.
    + rewrite Z.add_0_l. apply sum_over_ext. intros k _.
      rewrite decide_False; [done|]. congruence.
Qed.

(** ** Shapes and well-formedness of the results *)

Lemma same_shape_set (R C : Z) (m : SparseMatrix) (r c v : Z) :
  r < R → c < C → same_shape R C m → same_shape R C (set_element_of m r c v).
Proof.
  intros Hr Hc [<- <-]. split; cbn.
  - destruct (Z.geb_spec r (row_count m)); [lia|done].
  - destruct (Z.geb_spec c (col_count m)); [lia|done].
Qed.

Lemma wf_set (m : SparseMatrix) (r c v : Z) :
  dict_wf (data m) → dict_wf (data (set_element_of m r c v)).
Proof. apply dict_set_wf. Qed.

Lemma keys_nonneg_set (m : SparseMatrix) (r c v : Z) :
  0 ≤ r → 0 ≤ c → keys_nonneg m → keys_nonneg (set_element_of m r c v).
Proof.
  intros Hr Hc Hm r' c' v' Hin. cbn in Hin.
  apply dict_set_elem in Hin as [[= -> -> ->]|Hin]; [done|]. eapply Hm, Hin.
Qed.

Lemma product_cell_inv (P : SparseMatrix → Prop) (B : SparseMatrix) (row col val : Z)
    (m : SparseMatrix) (k : Z) :
  (∀ m v, P m → P (set_element_of m row k v)) →
  P m → P (product_cell B row col val m k).
Proof. intros Hset Hm. unfold product_cell. destruct (negb _); auto. Qed.

Lemma add_of_shape (A B : SparseMatrix) :
  keys_below A → keys_below B →
  row_count A = row_count B → col_count A = col_count B →
  same_shape (row_count A) (col_count A) (add_of A B).
Proof.
  intros HA HB Hr Hc. unfold add_of.
  apply fold_left_inv.
  { intros m [[r c] v] Hin Hm. destruct (HB _ _ _ Hin).
    unfold combine_step; cbn [fst snd]. apply same_shape_set; [lia|lia|done]. }
  apply fold_left_inv; [|done].
  intros m [[r c] v] Hin Hm. destruct (HA _ _ _ Hin).
  unfold copy_step; cbn [fst snd]. now apply same_shape_set.
Qed.

Lemma add_of_wf (A B : SparseMatrix) : dict_wf (data (add_of A B)).
Proof.
  unfold add_of. apply (fold_left_inv (λ m, dict_wf (data m))).
  { intros. now apply wf_set. }
  apply (fold_left_inv (λ m, dict_wf (data m))).
  { intros. now apply wf_set. }
  apply NoDup_nil_2.
Qed.

Lemma add_of_nonneg (A B : SparseMatrix) :
  keys_nonneg A → keys_nonneg B → keys_nonneg (add_of A B).
Proof.
  intros HA HB. unfold add_of. apply fold_left_inv.
  { intros m [[r c] v] Hin Hm. destruct (HB _ _ _ Hin).
    unfold combine_step; cbn [fst snd]. now apply keys_nonneg_set. }
  apply fold_left_inv.
  { intros m [[r c] v] Hin Hm. destruct (HA _ _ _ Hin).
    unfold copy_step; cbn [fst snd]. now apply keys_nonneg_set. }
  intros r c v Hin. now apply elem_of_nil in Hin.
Qed.

Lemma add_of_valid (A B : SparseMatrix) :
  valid A → valid B → valid (add_of A B).
Proof.
  intros (_ & HA & _) (_ & HB & _). split; [apply add_of_wf|].
  split; [now apply add_of_nonneg | apply keys_below_add_of].
Qed.

Lemma multiply_of_shape (A B : SparseMatrix) :
  keys_below A → same_shape (row_count A) (col_count B) (multiply_of A B).
Proof.
  intros HA. unfold multiply_of. apply fold_left_inv; [|done].
  intros m [[r c] v] Hin Hm. destruct (HA _ _ _ Hin).
  unfold product_step; cbn [fst snd]. apply fold_left_inv; [|done].
  intros m' k Hk Hm'. apply elem_of_seqZ in Hk.
  apply product_cell_inv; [|done]. intros. apply same_shape_set; [lia|lia|done].
Qed.

Lemma multiply_of_wf (A B : SparseMatrix) : dict_wf (data (multiply_of A B)).
Proof.
  unfold multiply_of. apply (fold_left_inv (λ m, dict_wf (data m))); [|apply NoDup_nil_2].
  intros m it _ Hm. unfold product_step.
  apply (fold_left_inv (λ m, dict_wf (data m))); [|done].
  intros m' k _ Hm'. apply (product_cell_inv (λ m, dict_wf (data m))); [|done].
  intros. now apply wf_set.
Qed.

Lemma multiply_of_get (A B : SparseMatrix) (i j : Z) :
  dict_wf (data A) → keys_nonneg A → keys_below A →
  0 ≤ j < col_count B →
  get_element_of (multiply_of A B) i j = dot A B i j.
Proof.
  intros Hwf Hnn Hbelow Hj. unfold multiply_of, dot.
  rewrite product_fold_get by done.
  rewrite (contributions_dot B (data A) (range (col_count A))); [done|done|apply NoDup_seqZ|].
  intros r c v Hin. destruct (Hnn _ _ _ Hin), (Hbelow _ _ _ Hin).
  apply elem_of_seqZ. lia.
Qed.

Lemma get_outside (B : SparseMatrix) (k j : Z) :
  keys_nonneg B → keys_below B → ¬ (0 ≤ j < col_count B) → get_element_of B k j = 0.
Proof.
  intros Hnn Hbelow Hj. apply dict_get_absent. intros Hin.
  apply list_elem_of_fmap in Hin as [[[r c] v] [[= -> ->] Hin]].
  destruct (Hnn _ _ _ Hin), (Hbelow _ _ _ Hin). lia.
Qed.

Lemma multiply_of_get_all (A B : SparseMatrix) (i j : Z) :
  valid A → valid B →
  get_element_of (multiply_of A B) i j = dot A B i j.
Proof.
  intros (HwfA & HnnA & HbA) (_ & HnnB & HbB).
  destruct (decide (0 ≤ j < col_count B)) as [Hj|Hj]; [now apply multiply_of_get|].
  unfold multiply_of. rewrite product_fold_get_outside by done.
  unfold dot. rewrite sum_over_zero; [done|].
  intros k _. rewrite (get_outside B k j) by done. lia.
Qed.

Lemma dot_add_of (A B C : SparseMatrix) (i j : Z) :
  valid A → valid B →
  row_count A = row_count B → col_count A = col_count B →
  dot (add_of A B) C i j = dot A C i j + dot B C i j.
Proof.
  intros HA HB Hr Hc. unfold dot.
  destruct (add_of_shape A B) as [_ ->]; [apply HA|apply HB|done|done|].
  rewrite <- Hc, <- sum_over_plus. apply sum_over_ext. intros k _.
  rewrite add_of_get; [ring|apply HA|apply HB].
Qed.

(** ** Characters and numerals *)

Ltac char_class :=
  unfold isdigit, isspace in *;
  repeat match goal with
         | H : context [?a <=? ?b] |- _ => destruct (Z.leb_spec a b)
         | |- context [?a <=? ?b] => destruct (Z.leb_spec a b)
         | H : context [?a =? ?b] |- _ => destruct (Z.eqb_spec a b)
         | |- context [?a =? ?b] => destruct (Z.eqb_spec a b)
         end;
  cbn in *; try lia; try done.

Lemma digit_not_space (c : ascii) : isdigit c = true → isspace c = false.
Proof. intros H. char_class. Qed.

Lemma digit_not_minus (c : ascii) : isdigit c = true → Ascii.eqb c "-" = false.
Proof.
  intros H. destruct (Ascii.eqb_spec c "-") as [->|]; [discriminate H|done].
Qed.

Lemma digit_char_spec (d : Z) :
  0 ≤ d < 10 → isdigit (digit_char d) = true ∧ digit_val (digit_char d) = d.
Proof.
  intros Hd.
  assert (d = 0 ∨ d = 1 ∨ d = 2 ∨ d = 3 ∨ d = 4 ∨ d = 5 ∨ d = 6 ∨ d = 7 ∨ d = 8 ∨ d = 9)
    as Hcases by lia.
  repeat destruct Hcases as [->|Hcases]; try subst d; split; reflexivity.
Qed.

Lemma int_of_digits_snoc (s : str) (c : ascii) :
  int_of_digits (s ++ [c]) = 10 * int_of_digits s + digit_val c.
Proof. unfold int_of_digits. now rewrite fold_left_app. Qed.

Lemma str_digits_acc (fuel : nat) (n : Z) (acc : str) :
  str_digits fuel n acc = str_digits fuel n [] ++ acc.
Proof.
  revert n acc. induction fuel as [|fuel IH]; intros n acc; cbn; [done|].
  destruct (n / 10 =? 0); [done|].
  rewrite IH, (IH _ [_]). now rewrite <- app_assoc.
Qed.

(** With fuel left, the numeral ends with the digit of the units. *)
Lemma str_digits_last (fuel : nat) (n : Z) :
  ∃ s, str_digits (S fuel) n [] = s ++ [digit_char (n mod 10)].
Proof.
  cbn. destruct (n / 10 =? 0); [now exists []|].
  rewrite str_digits_acc. eauto.
Qed.

Lemma str_digits_isdigit (fuel : nat) (n : Z) :
  0 ≤ n → Forall (λ c, isdigit c = true) (str_digits fuel n []).
Proof.
  revert n. induction fuel as [|fuel IH]; intros n Hn; cbn; [constructor|].
  pose proof (Z.mod_pos_bound n 10 ltac:(lia)) as Hmod.
  destruct (digit_char_spec (n mod 10) Hmod) as [Hd _].
  destruct (n / 10 =? 0); [now repeat constructor|].
  rewrite str_digits_acc. apply Forall_app. split; [|now repeat constructor].
  apply IH. apply Z.div_pos; lia.
Qed.

Lemma str_digits_value (fuel : nat) (n : Z) :
  0 ≤ n < 2 ^ Z.of_nat fuel → int_of_digits (str_digits fuel n []) = n.
Proof.
  revert n. induction fuel as [|fuel IH]; intros n Hn.
  - cbn in *. lia.
  - cbn [str_digits].
    pose proof (Z.mod_pos_bound n 10 ltac:(lia)) as Hmod.
    pose proof (Z.div_mod n 10 ltac:(lia)) as Hdiv.
    destruct (digit_char_spec (n mod 10) Hmod) as [_ Hv].
    destruct (Z.eqb_spec (n / 10) 0) as [H0|H0].
    + unfold int_of_digits; cbn [fold_left]. lia.
    + rewrite str_digits_acc, int_of_digits_snoc, Hv, IH; [lia|].
      rewrite Nat2Z.inj_succ, Z.pow_succ_r in Hn by lia.
      split; [apply Z.div_pos; lia|].
      apply Z.div_lt_upper_bound; lia.
Qed.

Lemma str_nonneg_value (n : Z) : 0 ≤ n → int_of_digits (str_nonneg n) = n.
Proof.
  intros Hn. apply str_digits_value. split; [done|].
  destruct (decide (n = 0)) as [->|Hne]; [cbn; lia|].
  rewrite Nat2Z.inj_succ, Z2Nat.id by apply Z.log2_nonneg.
  apply Z.log2_spec. lia.
Qed.

Lemma str_nonneg_digits (n : Z) : 0 ≤ n → digits (str_nonneg n).
Proof.
  intros Hn. split; [|now apply str_digits_isdigit].
  unfold str_nonneg. destruct (str_digits_last (Z.to_nat (Z.log2 n)) n) as [s ->].
  now destruct s.
Qed.

(** A numeral is a sign followed by digits. *)
Lemma str_of_int_form (n : Z) :
  ∃ sg d, sign sg ∧ digits d ∧ str_of_int n = sg ++ d ∧ (0 ≤ n → sg = []).
Proof.
  unfold str_of_int. destruct (Z.ltb_spec n 0).
  - exists ["-"%char], (str_nonneg (- n)).
    split; [now right|]. split; [apply str_nonneg_digits; lia|]. split; [done|lia].
  - exists [], (str_nonneg n).
    split; [now left|]. split; [now apply str_nonneg_digits|]. done.
Qed.

Lemma digits_head (d : str) :
  digits d → ∃ c d', d = c :: d' ∧ isdigit c = true.
Proof.
  intros [Hne Hall]. destruct d as [|c d']; [done|].
  apply Forall_cons in Hall as [Hc _]. eauto.
Qed.

Lemma int_digits (d : str) : digits d → int d = int_of_digits d.
Proof.
  intros Hd. destruct (digits_head d Hd) as (c & d' & -> & Hc).
  cbn. now rewrite digit_not_minus.
Qed.

Lemma int_str_of_int (n : Z) : int (str_of_int n) = n.
Proof.
  unfold str_of_int. destruct (Z.ltb_spec n 0).
  - unfold int. rewrite Ascii.eqb_refl, str_nonneg_value; lia.
  - rewrite int_digits by now apply str_nonneg_digits. now apply str_nonneg_value.
Qed.

Lemma int_of_digits_nonneg (d : str) :
  Forall (λ c, isdigit c = true) d → 0 ≤ int_of_digits d.
Proof.
  induction d as [|c d IH] using rev_ind; intros Hall; [done|].
  apply Forall_app in Hall as [Hd Hc]. apply Forall_cons in Hc as [Hc _].
  rewrite int_of_digits_snoc. specialize (IH Hd).
  unfold digit_val. char_class.
Qed.

Lemma int_nonneg (d : str) : digits d → 0 ≤ int d.
Proof.
  intros Hd. rewrite int_digits by done. apply int_of_digits_nonneg, Hd.
Qed.

(** ** The matcher and the language of the pattern *)

Lemma span_digits_spec (s : str) :
  s = (span_digits s).1 ++ (span_digits s).2 ∧
  Forall (λ c, isdigit c = true) (span_digits s).1 ∧
  starts_outside isdigit (span_digits s).2.
Proof.
  induction s as [|c s IH]; cbn; [by repeat constructor|].
  destruct (isdigit c) eqn:Hc; cbn; [|by repeat constructor].
  destruct (span_digits s) as [d r]; cbn in *.
  destruct IH as (-> & Hd & Hr). by repeat constructor.
Qed.

Lemma span_digits_app (d r : str) :
  Forall (λ c, isdigit c = true) d → starts_outside isdigit r →
  span_digits (d ++ r) = (d, r).
Proof.
  intros Hd Hr. induction Hd as [|c d Hc Hd IH]; cbn.
  - destruct r as [|c r]; [done|]. cbn in *. now rewrite Hr.
  - now rewrite Hc, IH.
Qed.

Lemma digits1_some (s d r : str) :
  digits1 s = Some (d, r) → s = d ++ r ∧ digits d.
Proof.
  unfold digits1. pose proof (span_digits_spec s) as (Hs & Hd & _).
  destruct (span_digits s) as [[|c d'] r']; [done|].
  intros [= <- <-]. cbn in *. split; [done|]. split; done.
Qed.

Lemma digits1_app (d r : str) :
  digits d → starts_outside isdigit r → digits1 (d ++ r) = Some (d, r).
Proof.
  intros [Hne Hd] Hr. unfold digits1. rewrite span_digits_app by done.
  now destruct d.
Qed.

Lemma lstrip_spec (s : str) : ∃ w, s = w ++ lstrip s ∧ spaces w.
Proof.
  induction s as [|c s (w & Hw & Hsp)]; cbn;
    [exists []; split; [done|constructor]|].
  destruct (isspace c) eqn:Hc; [|exists []; split; [done|constructor]].
  exists (c :: w). split; [cbn; congruence|]. now constructor.
Qed.

Lemma lstrip_app (w r : str) :
  spaces w → starts_outside isspace r → lstrip (w ++ r) = r.
Proof.
  intros Hw Hr. induction Hw as [|c w Hc Hw IH]; cbn.
  - destruct r as [|c r]; [done|]. cbn in *. now rewrite Hr.
  - now rewrite Hc.
Qed.

Lemma expect_some (c : ascii) (s s' : str) : expect c s = Some s' ↔ s = c :: s'.
Proof.
  destruct s as [|c' s0]; cbn; [done|].
  destruct (Ascii.eqb_spec c c') as [->|Hne]; split; intros [=]; subst; done.
Qed.

Lemma signed_digits1_some (s g r : str) :
  signed_digits1 s = Some (g, r) →
  ∃ sg d, sign sg ∧ digits d ∧ g = sg ++ d ∧ s = g ++ r.
Proof.
  unfold signed_digits1. destruct s as [|c s'].
  - intros H. apply digits1_some in H as [Hs Hd]. exists [], g. split; [by left|]. split; [done|]. by split.
  - destruct (Ascii.eqb_spec c "-") as [->|Hne].
    + destruct (digits1 s') as [[d r']|] eqn:Hd; [|done]. cbn. intros [= <- <-].
      apply digits1_some in Hd as [-> Hd].
      exists ["-"%char], d. split; [by right|]. split; [done|]. by split.
    + intros H. apply digits1_some in H as [Hs Hd]. exists [], g. split; [by left|]. split; [done|]. by split.
Qed.

Lemma signed_digits1_app (sg d r : str) :
  sign sg → digits d → starts_outside isdigit r →
  signed_digits1 ((sg ++ d) ++ r) = Some (sg ++ d, r).
Proof.
  intros [->| ->] Hd Hr.
  - destruct (digits_head d Hd) as (c & d' & -> & Hc). cbn.
    rewrite digit_not_minus by done.
    now apply (digits1_app (c :: d')).
  - cbn. now rewrite digits1_app.
Qed.

Lemma match_entry_sound (s g1 g2 g3 : str) :
  match_entry s = Some (g1, g2, g3) → entry_prefix s g1 g2 g3.
Proof.
  unfold match_entry. intros H.
  destruct (expect "(" s) as [s1|] eqn:E1; [|done]. cbn in H.
  destruct (digits1 s1) as [[d1 s2]|] eqn:E2; [|done]. cbn in H.
  destruct (expect "," s2) as [s3|] eqn:E3; [|done]. cbn in H.
  destruct (digits1 (lstrip s3)) as [[d2 s4]|] eqn:E4; [|done]. cbn in H.
  destruct (expect "," s4) as [s5|] eqn:E5; [|done]. cbn in H.
  destruct (signed_digits1 (lstrip s5)) as [[d3 s6]|] eqn:E6; [|done]. cbn in H.
  destruct (expect ")" s6) as [s7|] eqn:E7; [|done]. cbn in H.
  injection H as <- <- <-.
  apply expect_some in E1, E3, E5, E7.
  apply digits1_some in E2 as [H2 Hd1], E4 as [H4 Hd2].
  apply signed_digits1_some in E6 as (sg & d & Hsg & Hd & Hg & H6).
  destruct (lstrip_spec s3) as (w1 & Hw1 & Hs1), (lstrip_spec s5) as (w2 & Hw2 & Hs2).
  exists w1, w2, sg, d, s7. repeat (split; [done|]).
  rewrite E1, H2, E3, Hw1, H4, E5, Hw2, H6, E7. reflexivity.
Qed.

Lemma match_entry_complete (s g1 g2 g3 : str) :
  entry_prefix s g1 g2 g3 → match_entry s = Some (g1, g2, g3).
Proof.
  intros (w1 & w2 & sg & d3 & rest & Hg1 & Hw1 & Hg2 & Hw2 & Hsg & Hd3 & -> & ->).
  unfold match_entry. cbn [lit list_ascii_of_string app expect].
  rewrite Ascii.eqb_refl. cbn [mbind option_bind].
  rewrite digits1_app by done. cbn [mbind option_bind expect].
  rewrite Ascii.eqb_refl. cbn [mbind option_bind].
  destruct (digits_head g2 Hg2) as (c2 & g2' & Eg2 & Hc2).
  rewrite lstrip_app; [|done|rewrite Eg2; now apply digit_not_space].
  rewrite digits1_app by done. cbn [mbind option_bind expect].
  rewrite Ascii.eqb_refl. cbn [mbind option_bind].
  rewrite lstrip_app; [|done|].
  - rewrite signed_digits1_app by done.
    cbn [mbind option_bind expect]. now rewrite Ascii.eqb_refl.
  - destruct (digits_head d3 Hd3) as (c3 & d3' & -> & Hc3).
    destruct Hsg as [->| ->]; cbn; [now apply digit_not_space|done].
Qed.

(** The matcher decides the language of the pattern. *)
Lemma entry_prefix_iff (s g1 g2 g3 : str) :
  match_entry s = Some (g1, g2, g3) ↔ entry_prefix s g1 g2 g3.
Proof. split; [apply match_entry_sound | apply match_entry_complete]. Qed.

(** ** Trimming and cutting into lines *)

Lemma lstrip_fixed_app (x y : str) :
  x ≠ [] → lstrip x = x → lstrip (x ++ y) = x ++ y.
Proof.
  destruct x as [|c x]; [done|]. intros _. cbn.
  destruct (isspace c); [|done].
  intros H. apply (f_equal length) in H. exfalso.
  destruct (lstrip_spec x) as (w & Hw & _). apply (f_equal length) in Hw.
  rewrite length_app in Hw. cbn in H. lia.
Qed.

Lemma rstrip_fixed_app (x y : str) :
  y ≠ [] → rstrip y = y → rstrip (x ++ y) = x ++ y.
Proof.
  unfold rstrip. intros Hne Hy.
  assert (Hrev : lstrip (rev y) = rev y).
  { apply (f_equal (@rev _)) in Hy. now rewrite rev_involutive in Hy. }
  rewrite rev_app_distr, lstrip_fixed_app, <- rev_app_distr, rev_involutive; [done| |done].
  intros H. apply (f_equal (@rev _)) in H. rewrite rev_involutive in H. done.
Qed.

Lemma rstrip_LF (s : str) : rstrip (s ++ [LF]) = rstrip s.
Proof. unfold rstrip. now rewrite rev_app_distr. Qed.

Lemma strip_LF (s : str) : strip (s ++ [LF]) = strip s.
Proof. unfold strip. now rewrite rstrip_LF. Qed.

Lemma strip_trimmed (s : str) : trimmed s → strip s = s.
Proof. intros (_ & Hl & Hr). unfold strip. now rewrite Hr. Qed.

Lemma trimmed_ends (a y b : str) : trimmed a → trimmed b → trimmed (a ++ y ++ b).
Proof.
  intros (Ha & Hla & _) (Hb & _ & Hrb). split; [now destruct a|]. split.
  - now apply lstrip_fixed_app.
  - rewrite app_assoc. now apply rstrip_fixed_app.
Qed.

Lemma lstrip_nonspace (s : str) :
  Forall (λ c, isspace c = false) s → lstrip s = s.
Proof. intros [|c s' Hc _]; cbn; [done|]. now rewrite Hc. Qed.

Lemma trimmed_nonspace (s : str) :
  s ≠ [] → Forall (λ c, isspace c = false) s → trimmed s.
Proof.
  intros Hne Hall. split; [done|]. split; [now apply lstrip_nonspace|].
  unfold rstrip. rewrite lstrip_nonspace, rev_involutive; [done|].
  now apply List.Forall_rev.
Qed.

Lemma split_lines_plain (cur s rest : str) :
  plain s →
  split_lines cur (s ++ LF :: rest) = (rev cur ++ s ++ [LF]) :: split_lines [] rest.
Proof.
  intros Hs. revert cur.
  induction Hs as [|c s [Hc _] _ IH]; intros cur; cbn [app split_lines].
  - now rewrite Ascii.eqb_refl.
  - destruct (Ascii.eqb_spec c LF); [done|]. rewrite IH. cbn [rev].
    now rewrite <- app_assoc.
Qed.

Lemma split_lines_end (cur s : str) :
  plain s → rev cur ++ s ≠ [] → split_lines cur s = [rev cur ++ s].
Proof.
  intros Hs. revert cur.
  induction Hs as [|c s [Hc _] _ IH]; intros cur Hne; cbn [split_lines].
  - rewrite app_nil_r in *. destruct cur; [done|]. done.
  - destruct (Ascii.eqb_spec c LF); [done|]. rewrite IH; cbn [rev].
    + now rewrite <- app_assoc.
    + rewrite <- app_assoc. cbn. now destruct (rev cur).
Qed.

Lemma join_lines_cons (s s' : str) (ls : list str) :
  join_lines (s :: s' :: ls) = s ++ LF :: join_lines (s' :: ls).
Proof. reflexivity. Qed.

Lemma join_lines_plain_no_CR (ls : list str) :
  Forall plain ls → Forall (λ c, c ≠ CR) (join_lines ls).
Proof.
  induction 1 as [|s ls Hs Hls IH]; [constructor|].
  destruct ls as [|s' ls].
  - cbn. eapply Forall_impl; [exact Hs|]. now intros c [_ Hc].
  - rewrite join_lines_cons. apply Forall_app. split.
    + eapply Forall_impl; [exact Hs|]. now intros c [_ Hc].
    + constructor; [done|exact IH].
Qed.

Lemma universal_newlines_no_CR (s : str) :
  Forall (λ c, c ≠ CR) s → universal_newlines s = s.
Proof.
  induction 1 as [|c s Hc _ IH]; cbn [universal_newlines]; [done|].
  destruct (Ascii.eqb_spec c CR); [done|]. now rewrite IH.
Qed.

(** Cutting the joined lines and trimming each gives the lines back. *)
Lemma readlines_join_lines (ls : list str) :
  Forall plain ls → Forall trimmed ls →
  strip <$> readlines (join_lines ls) = ls.
Proof.
  intros Hplain Htrim. unfold readlines.
  rewrite universal_newlines_no_CR by now apply join_lines_plain_no_CR.
  induction ls as [|s ls IH]; [done|].
  apply Forall_cons in Hplain as [Hs Hplain]. apply Forall_cons in Htrim as [Ht Htrim].
  destruct ls as [|s' ls].
  - cbn [join_lines]. rewrite split_lines_end; [|done|cbn; apply Ht].
    cbn [fmap list_fmap rev app]. now rewrite strip_trimmed.
  - rewrite join_lines_cons, split_lines_plain by done.
    cbn [fmap list_fmap rev app]. rewrite strip_LF, strip_trimmed by done.
    f_equal. now apply IH.
Qed.

Lemma join_lines_trimmed (ls : list str) :
  ls ≠ [] → Forall trimmed ls → trimmed (join_lines ls).
Proof.
  intros Hne Htrim. induction ls as [|s ls IH]; [done|].
  apply Forall_cons in Htrim as [Ht Htrim].
  destruct ls as [|s' ls]; [done|].
  rewrite join_lines_cons. apply (trimmed_ends s [LF]); [done|]. now apply IH.
Qed.

Lemma concat_lines_join (ls : list str) :
  ls ≠ [] → concat ((λ s, s ++ [LF]) <$> ls) = join_lines ls ++ [LF].
Proof.
  intros Hne. induction ls as [|s ls IH]; [done|].
  destruct ls as [|s' ls]; [cbn; now rewrite app_nil_r|].
  rewrite join_lines_cons. cbn [fmap list_fmap concat] in *.
  rewrite IH by done. now rewrite <- !app_assoc.
Qed.

Lemma strip_concat_lines (ls : list str) :
  ls ≠ [] → Forall trimmed ls →
  strip (concat ((λ s, s ++ [LF]) <$> ls)) = join_lines ls.
Proof.
  intros Hne Htrim. rewrite concat_lines_join, strip_LF by done.
  now apply strip_trimmed, join_lines_trimmed.
Qed.

(** ** Running the loader and the serializer *)

Lemma for_each_run_result {A} (l : loc) (g : SparseMatrix → A → result unit * SparseMatrix)
    (body : A → M unit) (xs : list A) :
  (∀ x h m, h !! l = Some m → body x h = ((g m x).1, <[l := (g m x).2]> h)) →
  ∀ h m, h !! l = Some m →
    for_each xs body h = ((fold_result g xs m).1, <[l := (fold_result g xs m).2]> h).
Proof.
  intros Hbody. induction xs as [|x xs IH]; intros h m E; cbn.
  - rewrite ret_run. now rewrite insert_id.
  - rewrite bind_run, (Hbody x h m E).
    destruct (g m x) as [[[]|e] m']; cbn; [|done].
    rewrite (IH _ m') by apply lookup_insert_eq.
    now rewrite insert_insert_eq.
Qed.

Lemma from_file_entry_run (file_path : str) (lines : list str) (l : loc) (i : nat)
    (h : heap) (m : SparseMatrix) :
  h !! l = Some m →
  from_file_entry file_path lines l i h
  = ((entry_of file_path lines m i).1, <[l := (entry_of file_path lines m i).2]> h).
Proof.
  intros E. unfold from_file_entry, entry_of.
  destruct (decide (strip (lines !!! i) = [])); cbn.
  - rewrite ret_run. now rewrite insert_id.
  - destruct (match_entry (strip (lines !!! i))) as [[[g1 g2] g3]|]; cbn.
    + now apply set_element_run.
    + unfold raise. now rewrite insert_id.
Qed.

Lemma from_file_run (fs : filesystem) (file_path : str) (h : heap) :
  from_file fs file_path h =
    match fs file_path with
    | None => (Raise (FileNotFoundError (lit "File not found: " ++ file_path)), h)
    | Some content =>
        let lines := readlines content in
        if (length lines <? 2)%nat then
          (Raise (ValueError (msg_not_enough_lines file_path)), h)
        else
          match match_rows (strip (lines !!! 0%nat)), match_cols (strip (lines !!! 1%nat)) with
          | Some rows, Some cols =>
              (match (loaded file_path lines rows cols).1 with
               | Ok _ => Ok (fresh (dom h))
               | Raise e => Raise e
               end,
               <[fresh (dom h) := (loaded file_path lines rows cols).2]> h)
          | _, _ => (Raise (ValueError (msg_bad_header file_path)), h)
          end
    end.
Proof.
  unfold from_file. destruct (fs file_path) as [content|]; [|done]. cbn zeta.
  destruct (length (readlines content) <? 2)%nat; [done|].
  destruct (match_rows _) as [rows|]; [|done].
  destruct (match_cols _) as [cols|]; [|done].
  unfold new_SparseMatrix. rewrite bind_run.
  destruct (alloc_run (mkSparseMatrix (int rows) (int cols) []) h) as [-> Hl].
  rewrite bind_run.
  rewrite (for_each_run_result (fresh (dom h)) (entry_of file_path (readlines content))
             _ _ (from_file_entry_run _ _ _) _ (mkSparseMatrix (int rows) (int cols) []))
    by apply lookup_insert_eq.
  fold (loaded file_path (readlines content) rows cols).
  rewrite insert_insert_eq.
  now destruct (loaded file_path (readlines content) rows cols).1.
Qed.

Lemma str_run (l : loc) (m : SparseMatrix) (h : heap) :
  h !! l = Some m → __str__ l h = (Ok (strip (output_of m)), h).
Proof. intros E. unfold __str__. do 3 run_step. reflexivity. Qed.

Lemma fold_result_inv {A} (P : SparseMatrix → Prop)
    (g : SparseMatrix → A → result unit * SparseMatrix) (xs : list A) :
  (∀ m x, P m → P (g m x).2) → ∀ m, P m → P (fold_result g xs m).2.
Proof.
  intros Hg. induction xs as [|x xs IH]; cbn; intros m Hm; [done|].
  specialize (Hg m x Hm). destruct (g m x) as [[[]|e] m']; cbn in *; auto.
Qed.

Lemma entry_of_inv (P : SparseMatrix → Prop) (file_path : str) (lines : list str)
    (m : SparseMatrix) (i : nat) :
  (∀ m r c v, P m → P (set_element_of m r c v)) →
  P m → P (entry_of file_path lines m i).2.
Proof.
  intros Hset Hm. unfold entry_of.
  destruct (decide _); [done|].
  destruct (match_entry _) as [[[g1 g2] g3]|]; cbn; auto.
Qed.

Lemma keys_below_loaded (file_path : str) (lines : list str) (rows cols : str) :
  keys_below (loaded file_path lines rows cols).2.
Proof.
  unfold loaded. apply fold_result_inv; [|apply keys_below_empty].
  intros m i Hm. apply entry_of_inv; [|done]. intros. now apply keys_below_set.
Qed.

Lemma pure_call_intro (h : heap) (a b : loc) (A B R : SparseMatrix) (cond : bool) (e : exn) :
  h !! a = Some A → h !! b = Some B →
  pure_call h a b A B
    (if cond then (Raise e, h) else (Ok (fresh (dom h)), <[fresh (dom h) := R]> h)).
Proof.
  intros Ea Eb.
  assert (Hl : h !! fresh (dom h) = None) by apply not_elem_of_dom, is_fresh.
  destruct cond; unfold pure_call; cbn; [done|].
  split; [held|]. split; [held|]. split; [intros; held|]. split; [done|]. now exists R.
Qed.

(** ** The text of the serializer *)

Lemma str_of_int_nonspace (n : Z) : Forall (λ c, isspace c = false) (str_of_int n).
Proof.
  destruct (str_of_int_form n) as (sg & d & Hsg & [_ Hd] & -> & _).
  apply Forall_app. split.
  - destruct Hsg as [->| ->]; by repeat constructor.
  - eapply Forall_impl; [exact Hd|]. apply digit_not_space.
Qed.

Lemma str_of_int_nonempty (n : Z) : str_of_int n ≠ [].
Proof.
  destruct (str_of_int_form n) as (sg & d & _ & [Hne _] & -> & _).
  destruct sg; [done|]. done.
Qed.

Lemma nonspace_plain (s : str) : Forall (λ c, isspace c = false) s → plain s.
Proof.
  intros H. eapply Forall_impl; [exact H|]. intros c Hc.
  split; intros ->; discriminate Hc.
Qed.

Lemma str_of_int_trimmed (n : Z) : trimmed (str_of_int n).
Proof.
  apply trimmed_nonspace; [apply str_of_int_nonempty | apply str_of_int_nonspace].
Qed.

Lemma entry_text_plain (it : key * Z) : plain (entry_text it).
Proof.
  unfold entry_text, plain. rewrite !Forall_app.
  repeat split; try apply nonspace_plain, str_of_int_nonspace;
    by repeat constructor.
Qed.

Lemma entry_text_trimmed (it : key * Z) : trimmed (entry_text it).
Proof.
  replace (entry_text it)
    with (lit "(" ++ (str_of_int it.1.1 ++ lit ", " ++ str_of_int it.1.2 ++ lit ", "
                        ++ str_of_int it.2) ++ lit ")")
    by (unfold entry_text; now rewrite <- !app_assoc).
  apply trimmed_ends; apply trimmed_nonspace; by repeat constructor.
Qed.

Lemma text_lines_plain (m : SparseMatrix) : Forall plain (text_lines m).
Proof.
  unfold text_lines. apply Forall_cons_2; [|apply Forall_cons_2].
  - apply Forall_app_2; [by repeat constructor|].
    apply nonspace_plain, str_of_int_nonspace.
  - apply Forall_app_2; [by repeat constructor|].
    apply nonspace_plain, str_of_int_nonspace.
  - apply Forall_fmap, Forall_forall. intros it _. apply entry_text_plain.
Qed.

Lemma text_lines_trimmed (m : SparseMatrix) : Forall trimmed (text_lines m).
Proof.
  unfold text_lines. apply Forall_cons_2; [|apply Forall_cons_2].
  - apply (trimmed_ends _ []); [|apply str_of_int_trimmed].
    apply trimmed_nonspace; by repeat constructor.
  - apply (trimmed_ends _ []); [|apply str_of_int_trimmed].
    apply trimmed_nonspace; by repeat constructor.
  - apply Forall_fmap, Forall_forall. intros it _. apply entry_text_trimmed.
Qed.

Lemma entry_line_text (it : key * Z) : entry_line it = entry_text it ++ [LF].
Proof. unfold entry_line, entry_text. now rewrite <- !app_assoc. Qed.

Lemma entry_lines_fold (items : dict) (out : str) :
  fold_left (λ out it, out ++ entry_line it) items out
  = out ++ concat ((λ s, s ++ [LF]) <$> (entry_text <$> items)).
Proof.
  revert out.
  induction items as [|it items IH]; intros out; cbn [fold_left fmap list_fmap concat].
  - now rewrite app_nil_r.
  - rewrite IH, entry_line_text. now rewrite <- !app_assoc.
Qed.

Lemma output_of_lines (m : SparseMatrix) :
  output_of m = concat ((λ s, s ++ [LF]) <$> text_lines m).
Proof.
  unfold output_of, text_lines. rewrite entry_lines_fold.
  cbn [fmap list_fmap concat]. now rewrite <- !app_assoc.
Qed.

(** The text of [__str__]: the lines joined by line feeds. *)
Lemma strip_output_of (m : SparseMatrix) :
  strip (output_of m) = join_lines (text_lines m).
Proof.
  rewrite output_of_lines. apply strip_concat_lines; [done|apply text_lines_trimmed].
Qed.

Lemma readlines_output (m : SparseMatrix) :
  strip <$> readlines (strip (output_of m)) = text_lines m.
Proof.
  rewrite strip_output_of.
  apply readlines_join_lines; [apply text_lines_plain | apply text_lines_trimmed].
Qed.

Lemma match_rows_text (n : Z) :
  0 ≤ n → match_rows (lit "rows=" ++ str_of_int n) = Some (str_of_int n).
Proof.
  intros Hn. unfold match_rows.
  change (expect_all (lit "rows=") (lit "rows=" ++ str_of_int n)) with (Some (str_of_int n)).
  cbn [mbind option_bind].
  destruct (str_of_int_form n) as (sg & d & _ & Hd & E & Hsg).
  rewrite (Hsg Hn) in E. cbn in E. rewrite E, <- (app_nil_r d), digits1_app by done.
  cbn. now rewrite app_nil_r.
Qed.

Lemma match_cols_text (n : Z) :
  0 ≤ n → match_cols (lit "cols=" ++ str_of_int n) = Some (str_of_int n).
Proof.
  intros Hn. unfold match_cols.
  change (expect_all (lit "cols=") (lit "cols=" ++ str_of_int n)) with (Some (str_of_int n)).
  cbn [mbind option_bind].
  destruct (str_of_int_form n) as (sg & d & _ & Hd & E & Hsg).
  rewrite (Hsg Hn) in E. cbn in E. rewrite E, <- (app_nil_r d), digits1_app by done.
  cbn. now rewrite app_nil_r.
Qed.

Lemma match_entry_text (it : key * Z) :
  0 ≤ it.1.1 → 0 ≤ it.1.2 →
  match_entry (entry_text it)
  = Some (str_of_int it.1.1, str_of_int it.1.2, str_of_int it.2).
Proof.
  intros Hr Hc. apply match_entry_complete.
  destruct (str_of_int_form it.1.1) as (sg1 & d1 & _ & Hd1 & E1 & Hsg1).
  destruct (str_of_int_form it.1.2) as (sg2 & d2 & _ & Hd2 & E2 & Hsg2).
  destruct (str_of_int_form it.2) as (sg3 & d3 & Hs3 & Hd3 & E3 & _).
  rewrite (Hsg1 Hr) in E1. rewrite (Hsg2 Hc) in E2. cbn in E1, E2.
  exists [" "%char], [" "%char], sg3, d3, [].
  rewrite E1, E2. repeat (split; [done || by repeat constructor|]).
  unfold entry_text. rewrite E1, E2, E3. reflexivity.
Qed.

(** ** The loop of the loader, line by line *)

Lemma fold_result_raise {A} (g : SparseMatrix → A → result unit * SparseMatrix)
    (xs1 xs2 : list A) (x : A) (e : exn) :
  (∀ m x', x' ∈ xs1 → (g m x').1 = Ok tt) →
  (∀ m, (g m x).1 = Raise e) →
  ∀ m, (fold_result g (xs1 ++ x :: xs2) m).1 = Raise e.
Proof.
  induction xs1 as [|x1 xs1 IH]; cbn; intros Hg Hx m.
  - specialize (Hx m). destruct (g m x) as [[[]|e'] m']; cbn in *; congruence.
  - pose proof (Hg m x1 (list_elem_of_here _ _)) as H1.
    destruct (g m x1) as [[[]|e'] m']; cbn in H1; [|done].
    apply IH; [|done]. intros m0 x0 Hx0. apply Hg. now apply list_elem_of_further.
Qed.





Lemma from_file_outcome (fs : filesystem) (file_path content rows cols : str) (h : heap) :
  fs file_path = Some content →
  (2 ≤ length (readlines content))%nat →
  match_rows (strip (readlines content !!! 0%nat)) = Some rows →
  match_cols (strip (readlines content !!! 1%nat)) = Some cols →
  from_file fs file_path h
  = (match (loaded file_path (readlines content) rows cols).1 with
     | Ok _ => Ok (fresh (dom h))
     | Raise e => Raise e
     end,
     <[fresh (dom h) := (loaded file_path (readlines content) rows cols).2]> h).
Proof.
  intros Hfs Hlen Hrows Hcols. rewrite from_file_run, Hfs. cbn zeta.
  destruct (Nat.ltb_spec (length (readlines content)) 2); [lia|].
  now rewrite Hrows, Hcols.
Qed.

(** ** Loading what the serializer wrote *)


Lemma strip_line_at (lines ls : list str) (i : nat) (s : str) :
  strip <$> lines = ls → ls !! i = Some s → strip (lines !!! i) = s.
Proof.
  intros <- Hi. rewrite list_lookup_fmap in Hi.
  destruct (lines !! i) as [line|] eqn:Hline; [|done].
  rewrite (list_lookup_total_correct _ _ _ Hline). now injection Hi.
Qed.

Lemma entry_of_text (file_path : str) (lines : list str) (m : SparseMatrix)
    (i : nat) (it : key * Z) :
  strip (lines !!! i) = entry_text it → 0 ≤ it.1.1 → 0 ≤ it.1.2 →
  entry_of file_path lines m i = (Ok tt, copy_step m it).
Proof.
  intros Hline Hr Hc. unfold entry_of. rewrite Hline.
  destruct (decide (entry_text it = [])) as [E|_];
    [now destruct (entry_text_trimmed it) as [Hne _]|].
  rewrite match_entry_text by done. now rewrite !int_str_of_int.
Qed.


Lemma match_rows_digits (s rows : str) : match_rows s = Some rows → digits rows.
Proof.
  unfold match_rows. destruct (expect_all _ s) as [s1|]; [|done]. cbn.
  destruct (digits1 s1) as [[d r]|] eqn:E; [|done]. cbn. intros [= <-].
  now apply digits1_some in E.
Qed.

Lemma match_cols_digits (s cols : str) : match_cols s = Some cols → digits cols.
Proof.
  unfold match_cols. destruct (expect_all _ s) as [s1|]; [|done]. cbn.
  destruct (digits1 s1) as [[d r]|] eqn:E; [|done]. cbn. intros [= <-].
  now apply digits1_some in E.
Qed.

Lemma loadable_set (m : SparseMatrix) (r c v : Z) :
  0 ≤ r → 0 ≤ c → loadable m → loadable (set_element_of m r c v).
Proof.
  intros Hr Hc ((Hwf & Hnn & Hb) & Hrc & Hcc).
  split; [split; [|split]|split].
  - now apply wf_set.
  - now apply keys_nonneg_set.
  - now apply keys_below_set.
  - cbn. destruct (r >=? row_count m); lia.
  - cbn. destruct (c >=? col_count m); lia.
Qed.

Lemma loaded_loadable (file_path : str) (lines : list str) (rows cols : str) :
  digits rows → digits cols → loadable (loaded file_path lines rows cols).2.
Proof.
  intros Hrows Hcols. unfold loaded. apply fold_result_inv.
  - intros m i Hm. unfold entry_of. destruct (decide _); [done|].
    destruct (match_entry _) as [[[g1 g2] g3]|] eqn:E; [|done]. cbn.
    apply match_entry_sound in E as (w1 & w2 & sg & d3 & rest & Hg1 & _ & Hg2 & _).
    apply loadable_set; [now apply int_nonneg|now apply int_nonneg|done].
  - split; [split; [|split]|split]; cbn; try (now apply int_nonneg).
    + apply NoDup_nil_2.
    + intros r c v H. now apply elem_of_nil in H.
    + intros r c v H. now apply elem_of_nil in H.
Qed.


Lemma validb_valid (m : SparseMatrix) : validb m = true → valid m.
Proof.
  unfold validb. intros H. apply andb_true_iff in H as [Hnd Hall].
  apply bool_decide_eq_true in Hnd. rewrite forallb_forall in Hall.
  split; [done|]. split; intros r c v Hin; apply list_elem_of_In, Hall in Hin;
    cbn in Hin; lia.
Qed.

Lemma heap_keys_below_empty : heap_keys_below ∅.
Proof. intros l m H. now rewrite lookup_empty in H. Qed.

(** ** Claims *)

(** C1. For operands of equal shape held in the store (dictionaries: their
    keys are pairwise distinct), [add] returns a new matrix whose
    [get_element] at every position is the sum of the operands' [get_element]
    there, in particular at the positions of the shape. *)
Theorem add_entrywise (h : heap) (a b : loc) (A B : SparseMatrix) :
  h !! a = Some A → h !! b = Some B →
  dict_wf (data A) → dict_wf (data B) →
  row_count A = row_count B → col_count A = col_count B →
  ∃ l h', add a b h = (Ok l, h') ∧ h !! l = None ∧
    ∀ r c, ∃ x y,
      get_element a r c h' = (Ok x, h') ∧
      get_element b r c h' = (Ok y, h') ∧
      get_element l r c h' = (Ok (x + y), h').
Proof.
  intros Ea Eb HA HB Hr Hc.
  assert (Hl : h !! fresh (dom h) = None) by apply not_elem_of_dom, is_fresh.
  exists (fresh (dom h)), (<[fresh (dom h) := add_of A B]> h).
  rewrite (add_run a b A B) by done.
  rewrite Hr, Hc, !Z.eqb_refl. cbn. split; [done|]. split; [done|].
  intros r c. exists (get_element_of A r c), (get_element_of B r c).
  rewrite <- add_of_get by done.
  split; [|split]; apply get_element_run; held.
Qed.

Lemma add_entrywise_witness :
  ∃ l h', add 0%nat 2%nat ex_heap = (Ok l, h') ∧ ex_heap !! l = None ∧
    ∀ r c, ∃ x y,
      get_element 0%nat r c h' = (Ok x, h') ∧
      get_element 2%nat r c h' = (Ok y, h') ∧
      get_element l r c h' = (Ok (x + y), h').
Proof.
  apply (add_entrywise ex_heap 0%nat 2%nat ex_A ex_C);
    try reflexivity; apply validb_valid; reflexivity.
Defined.

(** C8. [get_element] returns a value for every pair of indices, negative
    ones and ones beyond the counts included, and leaves the store as it is;
    the value is 0 when the dictionary has no entry at the indices, as in a
    new matrix after any calls of [set_element] at other positions. *)
Theorem get_element_total (h : heap) (l : loc) (m : SparseMatrix) (r c : Z) :
  h !! l = Some m →
  (∃ v, get_element l r c h = (Ok v, h) ∧ ((r, c) ∉ (data m).*1 → v = 0)) ∧
  (∀ rows cols (calls : dict), (r, c) ∉ calls.*1 →
     ∃ l' h',
       (l' ← new_SparseMatrix rows cols;
        for_each calls (λ '((row, col), val), set_element l' row col val);;
        mret l') h = (Ok l', h') ∧
       get_element l' r c h' = (Ok 0, h')).
Proof.
  intros E. split.
  - exists (get_element_of m r c). split; [now apply get_element_run|].
    intros Hk. now apply dict_get_absent.
  - intros rows cols calls Hk.
    exists (fresh (dom h)).
    exists (<[fresh (dom h) := fold_left copy_step calls (mkSparseMatrix rows cols [])]> h).
    unfold new_SparseMatrix. rewrite bind_run.
    destruct (alloc_run (mkSparseMatrix rows cols []) h) as [-> Hl].
    rewrite bind_run. erewrite copy_loop_run by held.
    rewrite insert_insert_eq, ret_run. split; [done|].
    erewrite get_element_run by held. now rewrite copy_loop_untouched.
Qed.

Lemma get_element_total_witness :
  (∃ v, get_element 0%nat 7 (-3) ex_heap = (Ok v, ex_heap) ∧
        ((7, -3) ∉ (data ex_A).*1 → v = 0)) ∧
  (∀ rows cols (calls : dict), (7, -3) ∉ calls.*1 →
     ∃ l' h',
       (l' ← new_SparseMatrix rows cols;
        for_each calls (λ '((row, col), val), set_element l' row col val);;
        mret l') ex_heap = (Ok l', h') ∧
       get_element l' 7 (-3) h' = (Ok 0, h')).
Proof. apply (get_element_total ex_heap 0%nat ex_A 7 (-3)). reflexivity. Defined.

(** C10. [set_element] with a negative row or column index raises nothing:
    the value is stored under the negative key, a negative row index leaves
    a non-negative [row_count] as it is, a negative column index leaves a
    non-negative [col_count] as it is, and [get_element] at the same indices
    then returns the value. *)
Theorem set_element_negative (h : heap) (l : loc) (m : SparseMatrix) (r c v : Z) :
  h !! l = Some m → r < 0 ∨ c < 0 →
  ∃ m', set_element l r c v h = (Ok tt, <[l := m']> h) ∧
    ((r, c), v) ∈ data m' ∧
    (r < 0 → 0 ≤ row_count m → row_count m' = row_count m) ∧
    (c < 0 → 0 ≤ col_count m → col_count m' = col_count m) ∧
    get_element l r c (<[l := m']> h) = (Ok v, <[l := m']> h).
Proof.
  intros E _. exists (set_element_of m r c v).
  split; [now apply set_element_run|]. split; [apply dict_set_has|].
  split; [|split].
  - intros Hr Hc. cbn. destruct (Z.geb_spec r (row_count m)); [lia|done].
  - intros Hr Hc. cbn. destruct (Z.geb_spec c (col_count m)); [lia|done].
  - erewrite get_element_run by held. now rewrite get_set_eq.
Qed.

Lemma set_element_negative_witness :
  ∃ m', set_element 0%nat (-1) (-2) 9 ex_heap = (Ok tt, <[0%nat := m']> ex_heap) ∧
    ((-1, -2), 9) ∈ data m' ∧
    (-1 < 0 → 0 ≤ row_count ex_A → row_count m' = row_count ex_A) ∧
    (-2 < 0 → 0 ≤ col_count ex_A → col_count m' = col_count ex_A) ∧
    get_element 0%nat (-1) (-2) (<[0%nat := m']> ex_heap) = (Ok 9, <[0%nat := m']> ex_heap).
Proof. apply (set_element_negative ex_heap 0%nat ex_A (-1) (-2) 9); [reflexivity | lia]. Defined.

(** C3. With both operands in the store, each of [add], [subtract] and
    [multiply] raises its dimension error exactly when the shapes do not fit,
    and then leaves the store as it was: no result has been constructed.
    When the shapes fit it returns a matrix.  [multiply] on a 2-by-3 and a
    4-by-2 matrix raises the error. *)
Theorem dimension_mismatch (h : heap) (a b : loc) (A B : SparseMatrix) :
  h !! a = Some A → h !! b = Some B →
  (add a b h = (Raise (ValueError msg_add), h)
     ↔ ¬ (row_count A = row_count B ∧ col_count A = col_count B)) ∧
  (subtract a b h = (Raise (ValueError msg_subtract), h)
     ↔ ¬ (row_count A = row_count B ∧ col_count A = col_count B)) ∧
  (multiply a b h = (Raise (ValueError msg_multiply), h)
     ↔ col_count A ≠ row_count B) ∧
  (∀ e h', add a b h = (Raise e, h') → e = ValueError msg_add ∧ h' = h) ∧
  (∀ e h', subtract a b h = (Raise e, h') → e = ValueError msg_subtract ∧ h' = h) ∧
  (∀ e h', multiply a b h = (Raise e, h') → e = ValueError msg_multiply ∧ h' = h) ∧
  (row_count A = 2 → col_count A = 3 → row_count B = 4 → col_count B = 2 →
     multiply a b h = (Raise (ValueError msg_multiply), h)).
Proof.
  intros Ea Eb.
  rewrite (add_run a b A B), (subtract_run a b A B), (multiply_run a b A B) by done.
  destruct (Z.eqb_spec (row_count A) (row_count B)) as [Hr|Hr];
    destruct (Z.eqb_spec (col_count A) (col_count B)) as [Hc|Hc];
    destruct (Z.eqb_spec (col_count A) (row_count B)) as [Hm|Hm]; cbn;
    repeat split; try congruence; try tauto; try lia;
    try (intros [_ Hx]; congruence); try (intros [Hx _]; congruence);
    try (intros Hx; exfalso; apply Hx; now split).
Qed.

Lemma dimension_mismatch_witness :
  multiply 0%nat 1%nat ex_heap_mismatch
  = (Raise (ValueError msg_multiply), ex_heap_mismatch).
Proof.
  apply (dimension_mismatch ex_heap_mismatch 0%nat 1%nat ex_2x3 ex_4x2); reflexivity.
Defined.

(** C2. For operands of the data model with [A.col_count = B.row_count],
    [multiply] returns a new matrix of [A.row_count] rows and [B.col_count]
    columns whose entry [(i, j)] is the sum over [k < A.col_count] of
    [A.get(i, k) * B.get(k, j)]; on the 1-by-2 matrix with 1 and 2 and the
    2-by-1 matrix with 3 and 4 the result is the 1-by-1 matrix with 11. *)
Theorem multiply_dot (h : heap) (a b : loc) (A B : SparseMatrix) :
  h !! a = Some A → h !! b = Some B → valid A → valid B →
  col_count A = row_count B →
  (∃ l R, multiply a b h = (Ok l, <[l := R]> h) ∧ h !! l = None ∧
     row_count R = row_count A ∧ col_count R = col_count B ∧
     ∀ i j, get_element l i j (<[l := R]> h) = (Ok (dot A B i j), <[l := R]> h)) ∧
  multiply 0%nat 1%nat ex_heap
  = (Ok 3%nat, <[3%nat := mkSparseMatrix 1 1 [((0, 0), 11)]]> ex_heap).
Proof.
  intros Ea Eb HA HB Hshape. split; [|reflexivity].
  exists (fresh (dom h)), (multiply_of A B).
  rewrite (multiply_run a b A B) by done. rewrite Hshape, Z.eqb_refl. cbn [negb].
  split; [done|]. split; [apply not_elem_of_dom, is_fresh|].
  destruct (multiply_of_shape A B) as [Hr Hc]; [apply HA|].
  split; [done|]. split; [done|].
  intros i j. erewrite get_element_run by held.
  now rewrite multiply_of_get_all.
Qed.

Lemma multiply_dot_witness :
  (∃ l R, multiply 0%nat 1%nat ex_heap = (Ok l, <[l := R]> ex_heap) ∧ ex_heap !! l = None ∧
     row_count R = row_count ex_A ∧ col_count R = col_count ex_B ∧
     ∀ i j, get_element l i j (<[l := R]> ex_heap)
            = (Ok (dot ex_A ex_B i j), <[l := R]> ex_heap)) ∧
  multiply 0%nat 1%nat ex_heap
  = (Ok 3%nat, <[3%nat := mkSparseMatrix 1 1 [((0, 0), 11)]]> ex_heap).
Proof.
  apply (multiply_dot ex_heap 0%nat 1%nat ex_A ex_B);
    try reflexivity; apply validb_valid; reflexivity.
Defined.

(** C7. For [A] and [B] of the data model and of equal shape, and [C] with
    [A.col_count = C.row_count], the two sides of
    [multiply(add(A, B), C) = add(multiply(A, C), multiply(B, C))] are both
    computed, have the same shape, and agree at every position of it. *)
Theorem multiply_distributes (h : heap) (a b c : loc) (A B C : SparseMatrix) :
  h !! a = Some A → h !! b = Some B → h !! c = Some C →
  valid A → valid B →
  row_count A = row_count B → col_count A = col_count B →
  col_count A = row_count C →
  ∃ lhs rhs h' L R,
    (s ← add a b; lhs ← multiply s c;
     p ← multiply a c; q ← multiply b c; rhs ← add p q;
     mret (lhs, rhs)) h = (Ok (lhs, rhs), h') ∧
    h' !! lhs = Some L ∧ h' !! rhs = Some R ∧
    same_shape (row_count A) (col_count C) L ∧
    same_shape (row_count A) (col_count C) R ∧
    ∀ i j, 0 ≤ i < row_count A → 0 ≤ j < col_count C →
      ∃ v, get_element lhs i j h' = (Ok v, h') ∧ get_element rhs i j h' = (Ok v, h').
Proof.
  intros Ea Eb Ec HA HB Hr Hc Hm.
  pose proof (add_of_valid A B HA HB) as HS.
  destruct (add_of_shape A B) as [HSr HSc]; [apply HA|apply HB|done|done|].
  destruct (multiply_of_shape A C) as [HPr HPc]; [apply HA|].
  destruct (multiply_of_shape B C) as [HQr HQc]; [apply HB|].
  set (S := add_of A B) in *. set (P := multiply_of A C) in *.
  set (Q := multiply_of B C) in *.
  (* the five calls, one after the other *)
  rewrite bind_run, (add_run a b A B) by done.
  rewrite Hr, Hc, !Z.eqb_refl. cbn [negb orb]. fold S.
  assert (Hs : h !! fresh (dom h) = None) by apply not_elem_of_dom, is_fresh.
  set (s := fresh (dom h)) in *. set (h1 := <[s := S]> h).
  assert (E1s : h1 !! s = Some S) by apply lookup_insert_eq.
  assert (E1a : h1 !! a = Some A) by (unfold h1; held).
  assert (E1b : h1 !! b = Some B) by (unfold h1; held).
  assert (E1c : h1 !! c = Some C) by (unfold h1; held).
  rewrite bind_run, (multiply_run s c S C) by done.
  rewrite HSc, Hm, Z.eqb_refl. cbn [negb].
  assert (Hl : h1 !! fresh (dom h1) = None) by apply not_elem_of_dom, is_fresh.
  set (lhs := fresh (dom h1)) in *. set (h2 := <[lhs := multiply_of S C]> h1).
  assert (E2a : h2 !! a = Some A) by (unfold h2; held).
  assert (E2b : h2 !! b = Some B) by (unfold h2; held).
  assert (E2c : h2 !! c = Some C) by (unfold h2; held).
  rewrite bind_run, (multiply_run a c A C) by done.
  rewrite Hm, Z.eqb_refl. cbn [negb]. fold P.
  assert (Hp : h2 !! fresh (dom h2) = None) by apply not_elem_of_dom, is_fresh.
  set (p := fresh (dom h2)) in *. set (h3 := <[p := P]> h2).
  assert (E3b : h3 !! b = Some B) by (unfold h3; held).
  assert (E3c : h3 !! c = Some C) by (unfold h3; held).
  assert (E3p : h3 !! p = Some P) by apply lookup_insert_eq.
  rewrite bind_run, (multiply_run b c B C) by done.
  rewrite <- Hc, Hm, Z.eqb_refl. cbn [negb]. fold Q.
  assert (Hq : h3 !! fresh (dom h3) = None) by apply not_elem_of_dom, is_fresh.
  set (q := fresh (dom h3)) in *. set (h4 := <[q := Q]> h3).
  assert (E4p : h4 !! p = Some P) by (unfold h4; held).
  assert (E4q : h4 !! q = Some Q) by apply lookup_insert_eq.
  rewrite bind_run, (add_run p q P Q) by done.
  rewrite HPr, HPc, HQr, HQc, <- Hr, !Z.eqb_refl. cbn [negb orb].
  assert (Hrhs : h4 !! fresh (dom h4) = None) by apply not_elem_of_dom, is_fresh.
  set (rhs := fresh (dom h4)) in *. rewrite ret_run.
  assert (Hlhs : h2 !! lhs = Some (multiply_of S C)) by apply lookup_insert_eq.
  assert (E3l : h3 !! lhs = Some (multiply_of S C)) by (unfold h3; held).
  assert (E4l : h4 !! lhs = Some (multiply_of S C)) by (unfold h4; held).
  assert (E5l : <[rhs := add_of P Q]> h4 !! lhs = Some (multiply_of S C)) by held.
  exists lhs, rhs, (<[rhs := add_of P Q]> h4), (multiply_of S C), (add_of P Q).
  split; [done|]. split; [done|]. split; [apply lookup_insert_eq|].
  split.
  { rewrite <- HSr. apply multiply_of_shape, HS. }
  split.
  { rewrite <- HPr at 1. rewrite <- HPc. apply add_of_shape;
      try apply keys_below_multiply_of; congruence. }
  intros i j Hi Hj. exists (dot A C i j + dot B C i j). split.
  - erewrite get_element_run by done.
    rewrite multiply_of_get by (done || apply HS).
    unfold S. now rewrite dot_add_of.
  - erewrite get_element_run by apply lookup_insert_eq.
    rewrite add_of_get by apply multiply_of_wf.
    unfold P, Q. rewrite !multiply_of_get; (done || apply HA || apply HB).
Qed.

Lemma multiply_distributes_witness :
  ∃ lhs rhs h' L R,
    (s ← add 0%nat 2%nat; lhs ← multiply s 1%nat;
     p ← multiply 0%nat 1%nat; q ← multiply 2%nat 1%nat; rhs ← add p q;
     mret (lhs, rhs)) ex_heap = (Ok (lhs, rhs), h') ∧
    h' !! lhs = Some L ∧ h' !! rhs = Some R ∧
    same_shape (row_count ex_A) (col_count ex_B) L ∧
    same_shape (row_count ex_A) (col_count ex_B) R ∧
    ∀ i j, 0 ≤ i < row_count ex_A → 0 ≤ j < col_count ex_B →
      ∃ v, get_element lhs i j h' = (Ok v, h') ∧ get_element rhs i j h' = (Ok v, h').
Proof.
  apply (multiply_distributes ex_heap 0%nat 2%nat 1%nat ex_A ex_C ex_B);
    try reflexivity; apply validb_valid; reflexivity.
Defined.

(** C9. [add], [subtract] and [multiply] are pure: whether the call returns
    or raises, every object of the store, the two operands among them, has
    the counts and the entries it had; a call that returns has written to
    the newly allocated result only, and a call that raises to nothing. *)
Theorem operations_pure (h : heap) (a b : loc) (A B : SparseMatrix) :
  h !! a = Some A → h !! b = Some B →
  pure_call h a b A B (add a b h) ∧
  pure_call h a b A B (subtract a b h) ∧
  pure_call h a b A B (multiply a b h).
Proof.
  intros Ea Eb.
  rewrite (add_run a b A B), (subtract_run a b A B), (multiply_run a b A B) by done.
  split; [|split]; now apply pure_call_intro.
Qed.

Lemma operations_pure_witness :
  pure_call ex_heap 0%nat 1%nat ex_A ex_B (add 0%nat 1%nat ex_heap) ∧
  pure_call ex_heap 0%nat 1%nat ex_A ex_B (subtract 0%nat 1%nat ex_heap) ∧
  pure_call ex_heap 0%nat 1%nat ex_A ex_B (multiply 0%nat 1%nat ex_heap).
Proof. apply (operations_pure ex_heap 0%nat 1%nat ex_A ex_B); reflexivity. Defined.

(** C5. In a store where every key of every matrix lies below the counts,
    [set_element] (whatever the sign of the indices) sets the counts to
    [max(row_count, row + 1)] and [max(col_count, col + 1)], stores the key
    below them, and leaves every key of every matrix below the counts; so do
    the constructor, [add], [subtract], [multiply] and [from_file], whether
    they return or raise. *)
Theorem keys_below_invariant (h : heap) :
  heap_keys_below h →
  (∀ l m r c v, h !! l = Some m →
     ∃ m', set_element l r c v h = (Ok tt, <[l := m']> h) ∧
       row_count m' = Z.max (row_count m) (r + 1) ∧
       col_count m' = Z.max (col_count m) (c + 1) ∧
       ((r, c), v) ∈ data m' ∧ keys_below m' ∧
       heap_keys_below (<[l := m']> h)) ∧
  (∀ rows cols, heap_keys_below (new_SparseMatrix rows cols h).2) ∧
  (∀ a b A B, h !! a = Some A → h !! b = Some B →
     heap_keys_below (add a b h).2 ∧
     heap_keys_below (subtract a b h).2 ∧
     heap_keys_below (multiply a b h).2) ∧
  (∀ fs file_path, heap_keys_below (from_file fs file_path h).2).
Proof.
  intros Hh. split; [|split; [|split]].
  - intros l m r c v E. exists (set_element_of m r c v).
    split; [now apply set_element_run|].
    assert (Hm' : keys_below (set_element_of m r c v)) by (eapply keys_below_set, Hh, E).
    split; [cbn; destruct (Z.geb_spec r (row_count m)); lia|].
    split; [cbn; destruct (Z.geb_spec c (col_count m)); lia|].
    split; [apply dict_set_has|]. split; [done|].
    now apply heap_keys_below_insert.
  - intros rows cols. apply heap_keys_below_insert; [done|apply keys_below_empty].
  - intros a b A B Ea Eb.
    rewrite (add_run a b A B), (subtract_run a b A B), (multiply_run a b A B) by done.
    split; [|split];
      match goal with |- context [if ?c then _ else _] => destruct c end;
      cbn; try done; apply heap_keys_below_insert; try done.
    + apply keys_below_add_of.
    + apply keys_below_subtract_of.
    + apply keys_below_multiply_of.
  - intros fs file_path. rewrite from_file_run.
    destruct (fs file_path) as [content|]; [|done]. cbn zeta.
    destruct (length (readlines content) <? 2)%nat; [done|].
    destruct (match_rows _) as [rows|]; [|done].
    destruct (match_cols _) as [cols|]; [|done].
    cbn. apply heap_keys_below_insert; [done|apply keys_below_loaded].
Qed.

Lemma keys_below_invariant_witness :
  (∀ l m r c v, ex_heap !! l = Some m →
     ∃ m', set_element l r c v ex_heap = (Ok tt, <[l := m']> ex_heap) ∧
       row_count m' = Z.max (row_count m) (r + 1) ∧
       col_count m' = Z.max (col_count m) (c + 1) ∧
       ((r, c), v) ∈ data m' ∧ keys_below m' ∧
       heap_keys_below (<[l := m']> ex_heap)) ∧
  (∀ rows cols, heap_keys_below (new_SparseMatrix rows cols ex_heap).2) ∧
  (∀ a b A B, ex_heap !! a = Some A → ex_heap !! b = Some B →
     heap_keys_below (add a b ex_heap).2 ∧
     heap_keys_below (subtract a b ex_heap).2 ∧
     heap_keys_below (multiply a b ex_heap).2) ∧
  (∀ fs file_path, heap_keys_below (from_file fs file_path ex_heap).2).
Proof.
  apply (keys_below_invariant ex_heap).
  repeat apply heap_keys_below_insert; try apply heap_keys_below_empty;
    apply validb_valid; reflexivity.
Defined.






(** ** The accessors, beyond the claims *)

Lemma dict_set_set (d : dict) (k : key) (v1 v2 : Z) :
  dict_set (dict_set d k v1) k v2 = dict_set d k v2.
Proof.
  induction d as [|[k' v'] d IH]; cbn.
  - now rewrite decide_True.
  - destruct (decide (k' = k)) as [->|Hne]; cbn.
    + now rewrite decide_True.
    + rewrite decide_False by done. now rewrite IH.
Qed.

Lemma dict_set_present (d : dict) (k : key) (v : Z) :
  k ∈ d.*1 → (dict_set d k v).*1 = d.*1.
Proof.
  induction d as [|[k' v'] d IH]; cbn; intros Hk.
  - now apply elem_of_nil in Hk.
  - destruct (decide (k' = k)) as [->|Hne]; cbn; [done|].
    apply elem_of_cons in Hk as [->|Hk]; [done|]. now rewrite IH.
Qed.

Lemma set_element_of_twice (m : SparseMatrix) (r c v1 v2 : Z) :
  set_element_of (set_element_of m r c v1) r c v2 = set_element_of m r c v2.
Proof.
  unfold set_element_of; cbn [row_count col_count data].
  rewrite dict_set_set. f_equal.
  - destruct (Z.geb_spec r (row_count m)) as [Hr|Hr].
    + destruct (Z.geb_spec r (r + 1)); [lia|done].
    + destruct (Z.geb_spec r (row_count m)); [lia|done].
  - destruct (Z.geb_spec c (col_count m)) as [Hc|Hc].
    + destruct (Z.geb_spec c (c + 1)); [lia|done].
    + destruct (Z.geb_spec c (col_count m)); [lia|done].
Qed.

(** X1. After [set_element] at a position, [get_element] there returns the
    value set, [get_element] at every other position returns what it returned
    before, and every other object of the store is as it was. *)
Theorem set_then_get (h : heap) (l : loc) (m : SparseMatrix) (r c v : Z) :
  h !! l = Some m →
  ∃ h', set_element l r c v h = (Ok tt, h') ∧
    get_element l r c h' = (Ok v, h') ∧
    (∀ r' c' x, (r', c') ≠ (r, c) →
       get_element l r' c' h = (Ok x, h) → get_element l r' c' h' = (Ok x, h')) ∧
    (∀ l', l' ≠ l → h' !! l' = h !! l').
Proof.
  intros E. exists (<[l := set_element_of m r c v]> h).
  split; [now apply set_element_run|]. split; [|split].
  - erewrite get_element_run by held. now rewrite get_set_eq.
  - intros r' c' x Hne. rewrite (get_element_run _ _ _ _ _ E). intros [= <-].
    erewrite get_element_run by held. rewrite get_set_ne; [done|congruence].
  - intros l' Hne. now rewrite lookup_insert_ne.
Qed.

Lemma set_then_get_witness :
  ∃ h', set_element 0%nat 3 4 9 ex_heap = (Ok tt, h') ∧
    get_element 0%nat 3 4 h' = (Ok 9, h') ∧
    (∀ r' c' x, (r', c') ≠ (3, 4) →
       get_element 0%nat r' c' ex_heap = (Ok x, ex_heap) →
       get_element 0%nat r' c' h' = (Ok x, h')) ∧
    (∀ l', l' ≠ 0%nat → h' !! l' = ex_heap !! l').
Proof. apply (set_then_get ex_heap 0%nat ex_A 3 4 9). reflexivity. Defined.

(** X2. [set_element] overwrites: setting a position twice leaves the store
    that the second call alone leaves.  A call adds one entry when the
    position had none and keeps the number of entries otherwise. *)
Theorem set_element_overwrites (h : heap) (l : loc) (m : SparseMatrix) (r c v1 v2 : Z) :
  h !! l = Some m →
  (set_element l r c v1;; set_element l r c v2) h = set_element l r c v2 h ∧
  ∃ m', set_element l r c v2 h = (Ok tt, <[l := m']> h) ∧
    ((r, c) ∈ (data m).*1 → (data m').*1 = (data m).*1) ∧
    ((r, c) ∉ (data m).*1 → (data m').*1 = (data m).*1 ++ [(r, c)]).
Proof.
  intros E. split.
  - rewrite bind_run, (set_element_run _ _ _ _ _ _ E).
    erewrite !set_element_run by held.
    now rewrite insert_insert_eq, set_element_of_twice.
  - exists (set_element_of m r c v2). split; [now apply set_element_run|].
    split; intros Hk; cbn.
    + now apply dict_set_present.
    + rewrite dict_set_append by done. now rewrite fmap_app.
Qed.

Lemma set_element_overwrites_witness :
  (set_element 0%nat 0 1 7;; set_element 0%nat 0 1 8) ex_heap
  = set_element 0%nat 0 1 8 ex_heap ∧
  ∃ m', set_element 0%nat 0 1 8 ex_heap = (Ok tt, <[0%nat := m']> ex_heap) ∧
    ((0, 1) ∈ (data ex_A).*1 → (data m').*1 = (data ex_A).*1) ∧
    ((0, 1) ∉ (data ex_A).*1 → (data m').*1 = (data ex_A).*1 ++ [(0, 1)]).
Proof. apply (set_element_overwrites ex_heap 0%nat ex_A 0 1 7 8). reflexivity. Defined.

(** ** The arithmetic methods, beyond the claims *)

Lemma sub_loop_get (items : dict) (m : SparseMatrix) (r c : Z) :
  dict_wf items →
  get_element_of (fold_left (combine_step Z.sub) items m) r c
  = get_element_of m r c - dict_get items (r, c) 0.
Proof.
  unfold dict_wf. revert m.
  induction items as [|[[r' c'] v'] items IH]; cbn; intros m Hwf; [lia|].
  apply NoDup_cons in Hwf as [Hk Hwf]. rewrite IH by done.
  unfold combine_step; cbn [fst snd]. destruct (decide ((r', c') = (r, c))) as [Heq|Hne].
  - inversion Heq; subst. rewrite get_set_eq, dict_get_absent by done. lia.
  - now rewrite get_set_ne.
Qed.

Lemma subtract_of_get (A B : SparseMatrix) (r c : Z) :
  dict_wf (data A) → dict_wf (data B) →
  get_element_of (subtract_of A B) r c = get_element_of A r c - get_element_of B r c.
Proof.
  intros HA HB. unfold subtract_of. rewrite sub_loop_get, copy_loop_get by done.
  reflexivity.
Qed.

Lemma subtract_of_shape (A B : SparseMatrix) :
  keys_below A → keys_below B →
  row_count A = row_count B → col_count A = col_count B →
  same_shape (row_count A) (col_count A) (subtract_of A B).
Proof.
  intros HA HB Hr Hc. unfold subtract_of.
  apply fold_left_inv.
  { intros m [[r c] v] Hin Hm. destruct (HB _ _ _ Hin).
    unfold combine_step; cbn [fst snd]. apply same_shape_set; [lia|lia|done]. }
  apply fold_left_inv; [|done].
  intros m [[r c] v] Hin Hm. destruct (HA _ _ _ Hin).
  unfold copy_step; cbn [fst snd]. now apply same_shape_set.
Qed.

Lemma subtract_of_valid (A B : SparseMatrix) :
  valid A → valid B → valid (subtract_of A B).
Proof.
  intros (_ & HA & _) (_ & HB & _). split; [|split; [|apply keys_below_subtract_of]].
  - unfold subtract_of. apply (fold_left_inv (λ m, dict_wf (data m))).
    { intros. now apply wf_set. }
    apply (fold_left_inv (λ m, dict_wf (data m))).
    { intros. now apply wf_set. }
    apply NoDup_nil_2.
  - unfold subtract_of. apply fold_left_inv.
    { intros m [[r c] v] Hin Hm. destruct (HB _ _ _ Hin).
      unfold combine_step; cbn [fst snd]. now apply keys_nonneg_set. }
    apply fold_left_inv.
    { intros m [[r c] v] Hin Hm. destruct (HA _ _ _ Hin).
      unfold copy_step; cbn [fst snd]. now apply keys_nonneg_set. }
    intros r c v Hin. now apply elem_of_nil in Hin.
Qed.

Lemma multiply_of_valid (A B : SparseMatrix) :
  valid A → valid (multiply_of A B).
Proof.
  intros (_ & HA & _). split; [apply multiply_of_wf|].
  split; [|apply keys_below_multiply_of].
  unfold multiply_of. apply fold_left_inv.
  - intros m [[r c] v] Hin Hm. destruct (HA _ _ _ Hin).
    unfold product_step; cbn [fst snd]. apply fold_left_inv; [|done].
    intros m' k Hk Hm'. apply elem_of_seqZ in Hk.
    apply product_cell_inv; [|done]. intros. apply keys_nonneg_set; [done|lia|done].
  - intros r c v Hin. now apply elem_of_nil in Hin.
Qed.

(** The store after a method that returned the new object [R]. *)
Lemma fresh_unheld (h : heap) : h !! fresh (dom h) = None.
Proof. apply not_elem_of_dom, is_fresh. Qed.

(** X3. For operands of equal shape (dictionaries: keys pairwise distinct),
    [subtract] returns a new matrix whose [get_element] at every position is
    the first operand's minus the second's. *)
Theorem subtract_entrywise (h : heap) (a b : loc) (A B : SparseMatrix) :
  h !! a = Some A → h !! b = Some B →
  dict_wf (data A) → dict_wf (data B) →
  row_count A = row_count B → col_count A = col_count B →
  ∃ l h', subtract a b h = (Ok l, h') ∧ h !! l = None ∧
    ∀ r c, ∃ x y,
      get_element a r c h' = (Ok x, h') ∧
      get_element b r c h' = (Ok y, h') ∧
      get_element l r c h' = (Ok (x - y), h').
Proof.
  intros Ea Eb HA HB Hr Hc. pose proof (fresh_unheld h) as Hl.
  exists (fresh (dom h)), (<[fresh (dom h) := subtract_of A B]> h).
  rewrite (subtract_run a b A B) by done.
  rewrite Hr, Hc, !Z.eqb_refl. cbn. split; [done|]. split; [done|].
  intros r c. exists (get_element_of A r c), (get_element_of B r c).
  rewrite <- subtract_of_get by done.
  split; [|split]; apply get_element_run; held.
Qed.

Lemma subtract_entrywise_witness :
  ∃ l h', subtract 0%nat 2%nat ex_heap = (Ok l, h') ∧ ex_heap !! l = None ∧
    ∀ r c, ∃ x y,
      get_element 0%nat r c h' = (Ok x, h') ∧
      get_element 2%nat r c h' = (Ok y, h') ∧
      get_element l r c h' = (Ok (x - y), h').
Proof.
  apply (subtract_entrywise ex_heap 0%nat 2%nat ex_A ex_C);
    try reflexivity; apply validb_valid; reflexivity.
Defined.

(** X4. Subtracting [B] from the sum of [A] and [B] gives [A] back: for
    operands of equal shape whose keys lie below the counts, both calls
    return, and the result has the shape of [A] and the [get_element] of [A]
    at every position. *)
Theorem subtract_undoes_add (h : heap) (a b : loc) (A B : SparseMatrix) :
  h !! a = Some A → h !! b = Some B →
  dict_wf (data A) → dict_wf (data B) → keys_below A → keys_below B →
  row_count A = row_count B → col_count A = col_count B →
  ∃ d h' D, (s ← add a b; subtract s b) h = (Ok d, h') ∧
    h' !! d = Some D ∧ same_shape (row_count A) (col_count A) D ∧
    ∀ r c, ∃ x,
      get_element a r c h' = (Ok x, h') ∧ get_element d r c h' = (Ok x, h').
Proof.
  intros Ea Eb HA HB HkA HkB Hr Hc.
  destruct (add_of_shape A B HkA HkB Hr Hc) as [HSr HSc].
  rewrite bind_run, (add_run a b A B) by done.
  rewrite Hr, Hc, !Z.eqb_refl. cbn [negb orb].
  pose proof (fresh_unheld h) as Hs.
  set (s := fresh (dom h)) in *. set (S := add_of A B) in *. set (h1 := <[s := S]> h).
  assert (E1s : h1 !! s = Some S) by apply lookup_insert_eq.
  assert (E1a : h1 !! a = Some A) by (unfold h1; held).
  assert (E1b : h1 !! b = Some B) by (unfold h1; held).
  rewrite (subtract_run s b S B) by done.
  rewrite HSr, HSc, Hr, Hc, !Z.eqb_refl. cbn [negb orb].
  pose proof (fresh_unheld h1) as Hd.
  exists (fresh (dom h1)), (<[fresh (dom h1) := subtract_of S B]> h1), (subtract_of S B).
  split; [done|]. split; [apply lookup_insert_eq|]. split.
  - replace (row_count B) with (row_count S) by congruence.
    replace (col_count B) with (col_count S) by congruence.
    apply subtract_of_shape; try done.
    + apply keys_below_add_of.
    + congruence.
    + congruence.
  - intros r c. exists (get_element_of A r c). split.
    + apply get_element_run. held.
    + erewrite get_element_run by apply lookup_insert_eq.
      rewrite subtract_of_get by (done || apply add_of_wf).
      unfold S. rewrite add_of_get by done. f_equal. f_equal. lia.
Qed.

Lemma subtract_undoes_add_witness :
  ∃ d h' D, (s ← add 0%nat 2%nat; subtract s 2%nat) ex_heap = (Ok d, h') ∧
    h' !! d = Some D ∧ same_shape (row_count ex_A) (col_count ex_A) D ∧
    ∀ r c, ∃ x,
      get_element 0%nat r c h' = (Ok x, h') ∧ get_element d r c h' = (Ok x, h').
Proof.
  apply (subtract_undoes_add ex_heap 0%nat 2%nat ex_A ex_C);
    try reflexivity; apply validb_valid; reflexivity.
Defined.

Lemma dict_get_app_absent (l1 l2 : dict) (k : key) (default : Z) :
  k ∉ l1.*1 → dict_get (l1 ++ l2) k default = dict_get l2 k default.
Proof.
  induction l1 as [|[k' v'] l1 IH]; cbn; [done|]. intros Hk.
  apply not_elem_of_cons in Hk as [Hne Hk]. rewrite decide_False by congruence. auto.
Qed.

Lemma dict_set_app_absent (l1 l2 : dict) (k : key) (v : Z) :
  k ∉ l1.*1 → dict_set (l1 ++ l2) k v = l1 ++ dict_set l2 k v.
Proof.
  induction l1 as [|[k' v'] l1 IH]; cbn; [done|]. intros Hk.
  apply not_elem_of_cons in Hk as [Hne Hk]. rewrite decide_False by congruence.
  now rewrite IH.
Qed.

Lemma zero_out_keys (d : dict) : (zero_out d).*1 = d.*1.
Proof. unfold zero_out. rewrite <- list_fmap_compose. now apply list_fmap_ext. Qed.

Lemma copy_data (items : dict) (m : SparseMatrix) :
  NoDup (data m ++ items).*1 →
  data (fold_left copy_step items m) = data m ++ items.
Proof.
  revert m. induction items as [|[[r c] v] items IH]; intros m Hnd; cbn [fold_left].
  - now rewrite app_nil_r.
  - assert (Hk : (r, c) ∉ (data m).*1).
    { rewrite fmap_app in Hnd. apply NoDup_app in Hnd as (_ & Hd & _).
      intros Hk. apply (Hd _ Hk). cbn. apply list_elem_of_here. }
    rewrite IH; unfold copy_step; cbn [fst snd set_element_of data];
      rewrite dict_set_append by done; now rewrite <- app_assoc.
Qed.

(** Subtracting from a matrix the items it holds leaves a zero at each. *)
Lemma sub_self_fold (items pre : dict) (m : SparseMatrix) :
  NoDup (pre ++ items).*1 → data m = zero_out pre ++ items →
  data (fold_left (combine_step Z.sub) items m) = zero_out (pre ++ items).
Proof.
  revert pre m. induction items as [|[[r c] v] items IH]; intros pre m Hnd Hm;
    cbn [fold_left].
  - now rewrite app_nil_r in *.
  - assert (Hk : (r, c) ∉ (zero_out pre).*1).
    { rewrite zero_out_keys. rewrite fmap_app in Hnd.
      apply NoDup_app in Hnd as (_ & Hd & _).
      intros Hk. apply (Hd _ Hk). cbn. apply list_elem_of_here. }
    rewrite (IH (pre ++ [((r, c), v)])).
    + now rewrite <- app_assoc.
    + now rewrite <- app_assoc.
    + unfold combine_step, get_element_of; cbn [fst snd set_element_of data].
      rewrite Hm, dict_get_app_absent, dict_set_app_absent by done. cbn.
      rewrite !decide_True by done. unfold zero_out. rewrite fmap_app, <- app_assoc.
      cbn. repeat f_equal. lia.
Qed.

(** X5. Subtracting a matrix from itself does not give an empty matrix: the
    result has the shape of the operand and holds, for every key of the
    operand and in the same order, an entry whose value is 0. *)
Theorem subtract_self_zeros (h : heap) (a : loc) (A : SparseMatrix) :
  h !! a = Some A → dict_wf (data A) → keys_below A →
  ∃ l, h !! l = None ∧
    subtract a a h
    = (Ok l, <[l := mkSparseMatrix (row_count A) (col_count A) (zero_out (data A))]> h).
Proof.
  intros Ea HA Hk. exists (fresh (dom h)). split; [apply fresh_unheld|].
  rewrite (subtract_run a a A A) by done. rewrite !Z.eqb_refl. cbn [negb orb].
  do 2 f_equal.
  destruct (subtract_of_shape A A Hk Hk eq_refl eq_refl) as [Hr Hc].
  assert (Hd : data (subtract_of A A) = zero_out (data A)).
  { unfold subtract_of. apply (sub_self_fold (data A) []); [done|].
    now rewrite copy_data. }
  destruct (subtract_of A A) as [r c d]. cbn in *. now subst.
Qed.

Lemma subtract_self_zeros_witness :
  ∃ l, ex_heap !! l = None ∧
    subtract 0%nat 0%nat ex_heap
    = (Ok l, <[l := mkSparseMatrix (row_count ex_A) (col_count ex_A)
                      (zero_out (data ex_A))]> ex_heap).
Proof.
  apply (subtract_self_zeros ex_heap 0%nat ex_A);
    try reflexivity; apply validb_valid; reflexivity.
Defined.

Lemma filter_absent_snoc (l ks : list key) (k : key) :
  k ∉ ks → filter (λ x, x ∉ l ++ [k]) ks = filter (λ x, x ∉ l) ks.
Proof.
  induction ks as [|x ks IH]; intros Hk; [done|].
  apply not_elem_of_cons in Hk as [Hne Hk].
  destruct (decide (x ∈ l)) as [Hx|Hx].
  - rewrite !filter_cons_False; [auto| |]; intros H; apply H; [done|].
    apply elem_of_app. now left.
  - rewrite !filter_cons_True; [now rewrite IH|done|].
    intros H. apply elem_of_app in H as [H|H]; [done|].
    apply list_elem_of_singleton in H. congruence.
Qed.

Lemma combine_keys (op : Z → Z → Z) (items : dict) (m : SparseMatrix) :
  NoDup items.*1 →
  (data (fold_left (combine_step op) items m)).*1
  = (data m).*1 ++ filter (λ k, k ∉ (data m).*1) items.*1.
Proof.
  revert m. induction items as [|[[r c] v] items IH]; intros m Hnd; cbn [fold_left].
  - cbn. now rewrite app_nil_r.
  - cbn in Hnd. apply NoDup_cons in Hnd as [Hk Hnd]. rewrite IH by done.
    unfold combine_step; cbn [fst snd set_element_of data fmap list_fmap].
    destruct (decide ((r, c) ∈ (data m).*1)) as [Hin|Hin].
    + rewrite dict_set_present by done. now rewrite filter_cons_False by tauto.
    + rewrite dict_set_append by done. rewrite filter_cons_True by done.
      assert (E : (data m ++ [((r, c), op (get_element_of m r c) v)]).*1
                  = (data m).*1 ++ [(r, c)]) by now rewrite fmap_app.
      rewrite E, filter_absent_snoc by done. now rewrite <- app_assoc.
Qed.

Lemma copy_keys (items : dict) (R C : Z) :
  dict_wf items → (data (fold_left copy_step items (mkSparseMatrix R C []))).*1 = items.*1.
Proof. intros Hwf. now rewrite copy_data. Qed.

(** X6. The entries of a sum come in the order in which [__str__] writes
    them: the keys of the first operand, in its order, then the keys of the
    second operand that the first does not hold, in its order. *)
Theorem add_key_order (h : heap) (a b : loc) (A B : SparseMatrix) :
  h !! a = Some A → h !! b = Some B →
  dict_wf (data A) → dict_wf (data B) →
  row_count A = row_count B → col_count A = col_count B →
  ∃ l R, add a b h = (Ok l, <[l := R]> h) ∧ h !! l = None ∧
    (data R).*1 = (data A).*1 ++ filter (λ k, k ∉ (data A).*1) (data B).*1.
Proof.
  intros Ea Eb HA HB Hr Hc. exists (fresh (dom h)), (add_of A B).
  rewrite (add_run a b A B) by done. rewrite Hr, Hc, !Z.eqb_refl. cbn [negb orb].
  split; [done|]. split; [apply fresh_unheld|].
  unfold add_of. rewrite combine_keys by done. now rewrite copy_keys.
Qed.

Lemma add_key_order_witness :
  ∃ l R, add 0%nat 2%nat ex_heap = (Ok l, <[l := R]> ex_heap) ∧ ex_heap !! l = None ∧
    (data R).*1 = (data ex_A).*1 ++ filter (λ k, k ∉ (data ex_A).*1) (data ex_C).*1.
Proof.
  apply (add_key_order ex_heap 0%nat 2%nat ex_A ex_C);
    try reflexivity; apply validb_valid; reflexivity.
Defined.

Lemma combine_add_fresh (items : dict) (m : SparseMatrix) :
  NoDup (data m ++ items).*1 →
  data (fold_left (combine_step Z.add) items m) = data m ++ items.
Proof.
  revert m. induction items as [|[[r c] v] items IH]; intros m Hnd; cbn [fold_left].
  - now rewrite app_nil_r.
  - assert (Hk : (r, c) ∉ (data m).*1).
    { rewrite fmap_app in Hnd. apply NoDup_app in Hnd as (_ & Hd & _).
      intros Hk. apply (Hd _ Hk). cbn. apply list_elem_of_here. }
    rewrite IH; unfold combine_step, get_element_of; cbn [fst snd set_element_of data];
      rewrite dict_get_absent, dict_set_append by done; now rewrite <- app_assoc.
Qed.

(** X7. A matrix without entries is neutral for [add]: for operands of equal
    shape whose keys lie below the counts, the sum is a new object equal to
    the other operand, counts, entries and their order. *)
Theorem add_empty (h : heap) (a b : loc) (A B : SparseMatrix) :
  h !! a = Some A → h !! b = Some B →
  dict_wf (data A) → dict_wf (data B) → keys_below A → keys_below B →
  row_count A = row_count B → col_count A = col_count B →
  ∃ l, h !! l = None ∧
    (data B = [] → add a b h = (Ok l, <[l := A]> h)) ∧
    (data A = [] → add a b h = (Ok l, <[l := B]> h)).
Proof.
  intros Ea Eb HA HB HkA HkB Hr Hc. exists (fresh (dom h)).
  split; [apply fresh_unheld|].
  rewrite (add_run a b A B) by done. rewrite Hr, Hc, !Z.eqb_refl. cbn [negb orb].
  destruct (add_of_shape A B HkA HkB Hr Hc) as [HSr HSc].
  split; intros Hnil; do 2 f_equal.
  - assert (Hd : data (add_of A B) = data A).
    { unfold add_of. rewrite Hnil. cbn [fold_left]. now rewrite copy_data. }
    destruct (add_of A B), A. cbn in *. now subst.
  - assert (Hd : data (add_of A B) = data B).
    { unfold add_of. rewrite Hnil. cbn [fold_left]. now rewrite combine_add_fresh. }
    destruct (add_of A B), B. cbn in *. subst. f_equal; congruence.
Qed.

Lemma add_empty_witness :
  ∃ l, ex_heap_empty !! l = None ∧
    (data ex_E = [] → add 0%nat 1%nat ex_heap_empty = (Ok l, <[l := ex_A]> ex_heap_empty)) ∧
    (data ex_A = [] → add 0%nat 1%nat ex_heap_empty = (Ok l, <[l := ex_E]> ex_heap_empty)).
Proof.
  apply (add_empty ex_heap_empty 0%nat 1%nat ex_A ex_E);
    try reflexivity; apply validb_valid; reflexivity.
Defined.

Lemma multiply_of_keys (A B : SparseMatrix) : product_keys A B (multiply_of A B).
Proof.
  unfold multiply_of. apply fold_left_inv.
  - intros m [[row col] val] Hin Hm. unfold product_step; cbn [fst snd].
    apply fold_left_inv; [|done].
    intros m' k Hk Hm'. apply elem_of_seqZ in Hk. unfold product_cell.
    destruct (Z.eqb_spec (get_element_of B col k) 0) as [H0|H0]; cbn [negb]; [done|].
    intros i j v Hv. cbn in Hv. apply dict_set_elem in Hv as [[= -> -> ->]|Hv].
    + split; [lia|]. eauto.
    + now apply (Hm' i j v).
  - intros i j v Hv. now apply elem_of_nil in Hv.
Qed.

(** X8. [multiply] stores an entry at [(i, j)] only when [j] is a column of
    the second operand and the first operand has an entry [(i, k)] with
    [B.get(k, j)] not 0; so a product with an operand without entries, or with
    a second operand without columns, has no entries. *)
Theorem multiply_stores_where (h : heap) (a b : loc) (A B : SparseMatrix) :
  h !! a = Some A → h !! b = Some B → col_count A = row_count B →
  ∃ l R, multiply a b h = (Ok l, <[l := R]> h) ∧ h !! l = None ∧
    (∀ i j v, ((i, j), v) ∈ data R →
       0 ≤ j < col_count B ∧
       ∃ k x y, ((i, k), x) ∈ data A ∧
         get_element b k j (<[l := R]> h) = (Ok y, <[l := R]> h) ∧ y ≠ 0) ∧
    (data A = [] ∨ data B = [] ∨ col_count B ≤ 0 → data R = []).
Proof.
  intros Ea Eb Hshape. pose proof (fresh_unheld h) as Hl.
  exists (fresh (dom h)), (multiply_of A B).
  rewrite (multiply_run a b A B) by done. rewrite Hshape, Z.eqb_refl. cbn [negb].
  split; [done|]. split; [done|].
  pose proof (multiply_of_keys A B) as Hkeys. split.
  - intros i j v Hv. destruct (Hkeys i j v Hv) as (Hj & k & x & Hx & Hy).
    split; [done|]. exists k, x, (get_element_of B k j).
    split; [done|]. split; [|done]. apply get_element_run. held.
  - intros Hempty. destruct (data (multiply_of A B)) as [|[[i j] v] d] eqn:E; [done|].
    exfalso. destruct (Hkeys i j v) as (Hj & k & x & Hx & Hy).
    { rewrite E. apply list_elem_of_here. }
    destruct Hempty as [HA|[HB|Hc]].
    + rewrite HA in Hx. now apply elem_of_nil in Hx.
    + apply Hy. unfold get_element_of. now rewrite HB.
    + lia.
Qed.

Lemma multiply_stores_where_witness :
  ∃ l R, multiply 0%nat 1%nat ex_heap = (Ok l, <[l := R]> ex_heap) ∧ ex_heap !! l = None ∧
    (∀ i j v, ((i, j), v) ∈ data R →
       0 ≤ j < col_count ex_B ∧
       ∃ k x y, ((i, k), x) ∈ data ex_A ∧
         get_element 1%nat k j (<[l := R]> ex_heap) = (Ok y, <[l := R]> ex_heap) ∧ y ≠ 0) ∧
    (data ex_A = [] ∨ data ex_B = [] ∨ col_count ex_B ≤ 0 → data R = []).
Proof. apply (multiply_stores_where ex_heap 0%nat 1%nat ex_A ex_B); reflexivity. Defined.

Lemma sum_over_scale_l {A} (ks : list A) (f : A → Z) (c : Z) :
  c * sum_over ks f = sum_over ks (λ k, c * f k).
Proof.
  induction ks as [|k ks IH]; [rewrite !sum_over_nil; lia|].
  rewrite !sum_over_cons, <- IH. ring.
Qed.

Lemma sum_over_scale_r {A} (ks : list A) (f : A → Z) (c : Z) :
  sum_over ks f * c = sum_over ks (λ k, f k * c).
Proof.
  induction ks as [|k ks IH]; [rewrite !sum_over_nil; lia|].
  rewrite !sum_over_cons, <- IH. ring.
Qed.

Lemma sum_over_swap {A B} (ks : list A) (ls : list B) (f : A → B → Z) :
  sum_over ks (λ k, sum_over ls (λ l, f k l))
  = sum_over ls (λ l, sum_over ks (λ k, f k l)).
Proof.
  induction ks as [|k ks IH].
  - rewrite sum_over_nil. symmetry. now apply sum_over_zero.
  - rewrite sum_over_cons, IH, <- sum_over_plus. now apply sum_over_ext.
Qed.

Lemma dot_associates (A B C : SparseMatrix) (i j : Z) :
  valid A → valid B → valid C →
  dot (multiply_of A B) C i j = dot A (multiply_of B C) i j.
Proof.
  intros HA HB HC. unfold dot.
  destruct (multiply_of_shape A B) as [_ ->]; [apply HA|].
  rewrite (sum_over_ext _ _
             (λ k, sum_over (range (col_count A))
                     (λ l, get_element_of A i l * get_element_of B l k
                           * get_element_of C k j))).
  2:{ intros k _. rewrite multiply_of_get_all by done. unfold dot.
      now rewrite sum_over_scale_r. }
  rewrite sum_over_swap. apply sum_over_ext. intros l _.
  rewrite multiply_of_get_all by done. unfold dot.
  rewrite sum_over_scale_l. apply sum_over_ext. intros k _. ring.
Qed.

(** X9. [multiply] is associative on matrices of the data model: when
    [A.col_count = B.row_count] and [B.col_count = C.row_count], the products
    [(A B) C] and [A (B C)] are both computed, have [A.row_count] rows and
    [C.col_count] columns, and agree at every position. *)
Theorem multiply_associates (h : heap) (a b c : loc) (A B C : SparseMatrix) :
  h !! a = Some A → h !! b = Some B → h !! c = Some C →
  valid A → valid B → valid C →
  col_count A = row_count B → col_count B = row_count C →
  ∃ lhs rhs h' L R,
    (ab ← multiply a b; lhs ← multiply ab c;
     bc ← multiply b c; rhs ← multiply a bc;
     mret (lhs, rhs)) h = (Ok (lhs, rhs), h') ∧
    h' !! lhs = Some L ∧ h' !! rhs = Some R ∧
    same_shape (row_count A) (col_count C) L ∧
    same_shape (row_count A) (col_count C) R ∧
    ∀ i j, ∃ v, get_element lhs i j h' = (Ok v, h') ∧ get_element rhs i j h' = (Ok v, h').
Proof.
  intros Ea Eb Ec HA HB HC Hab Hbc.
  pose proof (multiply_of_valid A B HA) as HAB.
  pose proof (multiply_of_valid B C HB) as HBC.
  destruct (multiply_of_shape A B) as [HABr HABc]; [apply HA|].
  destruct (multiply_of_shape B C) as [HBCr HBCc]; [apply HB|].
  set (AB := multiply_of A B) in *. set (BC := multiply_of B C) in *.
  rewrite bind_run, (multiply_run a b A B) by done.
  rewrite Hab, Z.eqb_refl. cbn [negb]. fold AB.
  pose proof (fresh_unheld h) as H0.
  set (ab := fresh (dom h)) in *. set (h1 := <[ab := AB]> h).
  assert (E1ab : h1 !! ab = Some AB) by apply lookup_insert_eq.
  assert (E1a : h1 !! a = Some A) by (unfold h1; held).
  assert (E1b : h1 !! b = Some B) by (unfold h1; held).
  assert (E1c : h1 !! c = Some C) by (unfold h1; held).
  rewrite bind_run, (multiply_run ab c AB C) by done.
  rewrite HABc, Hbc, Z.eqb_refl. cbn [negb].
  pose proof (fresh_unheld h1) as H1.
  set (lhs := fresh (dom h1)) in *. set (h2 := <[lhs := multiply_of AB C]> h1).
  assert (E2l : h2 !! lhs = Some (multiply_of AB C)) by apply lookup_insert_eq.
  assert (E2a : h2 !! a = Some A) by (unfold h2; held).
  assert (E2b : h2 !! b = Some B) by (unfold h2; held).
  assert (E2c : h2 !! c = Some C) by (unfold h2; held).
  rewrite bind_run, (multiply_run b c B C) by done.
  rewrite Hbc, Z.eqb_refl. cbn [negb]. fold BC.
  pose proof (fresh_unheld h2) as H2.
  set (bc := fresh (dom h2)) in *. set (h3 := <[bc := BC]> h2).
  assert (E3bc : h3 !! bc = Some BC) by apply lookup_insert_eq.
  assert (E3a : h3 !! a = Some A) by (unfold h3; held).
  assert (E3l : h3 !! lhs = Some (multiply_of AB C)) by (unfold h3; held).
  rewrite bind_run, (multiply_run a bc A BC) by done.
  rewrite HBCr, Hab, Z.eqb_refl. cbn [negb].
  pose proof (fresh_unheld h3) as H3.
  set (rhs := fresh (dom h3)) in *. rewrite ret_run.
  exists lhs, rhs, (<[rhs := multiply_of A BC]> h3), (multiply_of AB C), (multiply_of A BC).
  split; [done|]. split; [held|]. split; [apply lookup_insert_eq|].
  split; [rewrite <- HABr; apply multiply_of_shape, HAB|].
  split; [rewrite <- HBCc; apply multiply_of_shape, HA|].
  intros i j. exists (dot AB C i j). split.
  - erewrite get_element_run by held. now rewrite multiply_of_get_all.
  - erewrite get_element_run by apply lookup_insert_eq.
    rewrite multiply_of_get_all by done. unfold AB, BC. now rewrite dot_associates.
Qed.

Lemma multiply_associates_witness :
  ∃ lhs rhs h' L R,
    (ab ← multiply 0%nat 1%nat; lhs ← multiply ab 2%nat;
     bc ← multiply 1%nat 2%nat; rhs ← multiply 0%nat bc;
     mret (lhs, rhs)) ex_heap = (Ok (lhs, rhs), h') ∧
    h' !! lhs = Some L ∧ h' !! rhs = Some R ∧
    same_shape (row_count ex_A) (col_count ex_C) L ∧
    same_shape (row_count ex_A) (col_count ex_C) R ∧
    ∀ i j, ∃ v, get_element lhs i j h' = (Ok v, h') ∧ get_element rhs i j h' = (Ok v, h').
Proof.
  apply (multiply_associates ex_heap 0%nat 1%nat 2%nat ex_A ex_B ex_C);
    try reflexivity; apply validb_valid; reflexivity.
Defined.

(** X10. [add] is commutative entry by entry: for operands of equal shape
    (dictionaries: keys pairwise distinct), [add(A, B)] and [add(B, A)] both
    return and have the same [get_element] at every position. *)
Theorem add_commutes (h : heap) (a b : loc) (A B : SparseMatrix) :
  h !! a = Some A → h !! b = Some B →
  dict_wf (data A) → dict_wf (data B) →
  row_count A = row_count B → col_count A = col_count B →
  ∃ x y h',
    (x ← add a b; y ← add b a; mret (x, y)) h = (Ok (x, y), h') ∧ x ≠ y ∧
    ∀ r c, ∃ v, get_element x r c h' = (Ok v, h') ∧ get_element y r c h' = (Ok v, h').
Proof.
  intros Ea Eb HA HB Hr Hc.
  rewrite bind_run, (add_run a b A B) by done.
  rewrite Hr, Hc, !Z.eqb_refl. cbn [negb orb].
  pose proof (fresh_unheld h) as H0.
  set (x := fresh (dom h)) in *. set (h1 := <[x := add_of A B]> h).
  assert (E1x : h1 !! x = Some (add_of A B)) by apply lookup_insert_eq.
  assert (E1a : h1 !! a = Some A) by (unfold h1; held).
  assert (E1b : h1 !! b = Some B) by (unfold h1; held).
  rewrite bind_run, (add_run b a B A) by done.
  rewrite <- Hr, <- Hc, !Z.eqb_refl. cbn [negb orb]. rewrite ret_run.
  pose proof (fresh_unheld h1) as H1.
  set (y := fresh (dom h1)) in *.
  exists x, y, (<[y := add_of B A]> h1).
  split; [done|]. split; [congruence|].
  intros r c. exists (get_element_of A r c + get_element_of B r c). split.
  - erewrite get_element_run by held. now rewrite add_of_get.
  - erewrite get_element_run by apply lookup_insert_eq.
    rewrite add_of_get by done. f_equal. f_equal. lia.
Qed.

Lemma add_commutes_witness :
  ∃ x y h',
    (x ← add 0%nat 2%nat; y ← add 2%nat 0%nat; mret (x, y)) ex_heap = (Ok (x, y), h') ∧
    x ≠ y ∧
    ∀ r c, ∃ v, get_element x r c h' = (Ok v, h') ∧ get_element y r c h' = (Ok v, h').
Proof.
  apply (add_commutes ex_heap 0%nat 2%nat ex_A ex_C);
    try reflexivity; apply validb_valid; reflexivity.
Defined.

(** X11. The three methods stay inside the data model: on operands whose
    keys are pairwise distinct, non-negative and below the counts, and whose
    shapes fit, each returns a matrix of the expected shape whose keys are
    again pairwise distinct, non-negative and below the counts. *)
Theorem results_valid (h : heap) (a b : loc) (A B : SparseMatrix) :
  h !! a = Some A → h !! b = Some B → valid A → valid B →
  (row_count A = row_count B → col_count A = col_count B →
     (∃ l R, add a b h = (Ok l, <[l := R]> h) ∧
        valid R ∧ same_shape (row_count A) (col_count A) R) ∧
     (∃ l R, subtract a b h = (Ok l, <[l := R]> h) ∧
        valid R ∧ same_shape (row_count A) (col_count A) R)) ∧
  (col_count A = row_count B →
     ∃ l R, multiply a b h = (Ok l, <[l := R]> h) ∧
       valid R ∧ same_shape (row_count A) (col_count B) R).
Proof.
  intros Ea Eb HA HB.
  rewrite (add_run a b A B), (subtract_run a b A B), (multiply_run a b A B) by done.
  split.
  - intros Hr Hc. rewrite Hr, Hc, !Z.eqb_refl. cbn [negb orb]. split.
    + exists (fresh (dom h)), (add_of A B). split; [done|].
      split; [now apply add_of_valid|].
      rewrite <- Hr, <- Hc. apply add_of_shape; try done; [apply HA|apply HB].
    + exists (fresh (dom h)), (subtract_of A B). split; [done|].
      split; [now apply subtract_of_valid|].
      rewrite <- Hr, <- Hc. apply subtract_of_shape; try done; [apply HA|apply HB].
  - intros Hm. rewrite Hm, Z.eqb_refl. cbn [negb].
    exists (fresh (dom h)), (multiply_of A B). split; [done|].
    split; [now apply multiply_of_valid|].
    apply multiply_of_shape, HA.
Qed.

Lemma results_valid_witness :
  (row_count ex_A = row_count ex_B → col_count ex_A = col_count ex_B →
     (∃ l R, add 0%nat 1%nat ex_heap = (Ok l, <[l := R]> ex_heap) ∧
        valid R ∧ same_shape (row_count ex_A) (col_count ex_A) R) ∧
     (∃ l R, subtract 0%nat 1%nat ex_heap = (Ok l, <[l := R]> ex_heap) ∧
        valid R ∧ same_shape (row_count ex_A) (col_count ex_A) R)) ∧
  (col_count ex_A = row_count ex_B →
     ∃ l R, multiply 0%nat 1%nat ex_heap = (Ok l, <[l := R]> ex_heap) ∧
       valid R ∧ same_shape (row_count ex_A) (col_count ex_B) R).
Proof.
  apply (results_valid ex_heap 0%nat 1%nat ex_A ex_B);
    try reflexivity; apply validb_valid; reflexivity.
Defined.

(** ** The loader, beyond the claims *)








(** X13. What [from_file] returns is a matrix of the data model: its keys
    are pairwise distinct, non-negative and below the counts, and the counts
    are non-negative. *)
Theorem from_file_loadable (fs : filesystem) (file_path : str) (h h' : heap) (l : loc) :
  from_file fs file_path h = (Ok l, h') →
  ∃ M, h' !! l = Some M ∧ h !! l = None ∧ h' = <[l := M]> h ∧
    dict_wf (data M) ∧ keys_nonneg M ∧ keys_below M ∧
    0 ≤ row_count M ∧ 0 ≤ col_count M.
Proof.
  rewrite from_file_run. destruct (fs file_path) as [content|]; [|done]. cbn zeta.
  destruct (length (readlines content) <? 2)%nat; [done|].
  destruct (match_rows _) as [rows|] eqn:Hrows; [|done].
  destruct (match_cols _) as [cols|] eqn:Hcols; [|done].
  apply match_rows_digits in Hrows. apply match_cols_digits in Hcols.
  destruct (loaded_loadable file_path (readlines content) rows cols Hrows Hcols)
    as ((Hwf & Hnn & Hb) & Hr & Hc).
  destruct (loaded file_path (readlines content) rows cols).1; [|done].
  intros [= <- <-]. eexists. split; [apply lookup_insert_eq|].
  split; [apply fresh_unheld|]. done.
Qed.

Lemma from_file_loadable_witness :
  ∃ M, ({[0%nat := ex_loaded]} : heap) !! 0%nat = Some M ∧
    (∅ : heap) !! 0%nat = None ∧ {[0%nat := ex_loaded]} = <[0%nat := M]> (∅ : heap) ∧
    dict_wf (data M) ∧ keys_nonneg M ∧ keys_below M ∧
    0 ≤ row_count M ∧ 0 ≤ col_count M.
Proof.
  apply (from_file_loadable (single_file ex_path ex_text) ex_path ∅). reflexivity.
Defined.





Lemma newline_out_cons (linesep : str) (c : ascii) (s : str) :
  newline_out linesep (c :: s)
  = (if Ascii.eqb c LF then linesep else [c]) ++ newline_out linesep s.
Proof. reflexivity. Qed.

Lemma newline_out_CR_head (s : str) : starts_outside (λ c, Ascii.eqb c LF) (newline_out [CR] s).
Proof.
  destruct s as [|c s]; [done|]. rewrite newline_out_cons.
  destruct (Ascii.eqb_spec c LF) as [->|Hne]; [done|].
  cbn [app starts_outside]. now apply Ascii.eqb_neq.
Qed.

(** Reading undoes the translation of line feeds that writing makes,
    whatever the line separator. *)
Lemma universal_newlines_out (linesep s : str) :
  linesep = [LF] ∨ linesep = [CR; LF] ∨ linesep = [CR] →
  Forall (λ c, c ≠ CR) s →
  universal_newlines (newline_out linesep s) = s.
Proof.
  intros Hsep Hs. induction Hs as [|c s Hc _ IH]; [done|].
  rewrite newline_out_cons. destruct (Ascii.eqb_spec c LF) as [->|Hne].
  - destruct Hsep as [->|[->| ->]]; cbn [app universal_newlines].
    + change (Ascii.eqb LF CR) with false. cbn iota. now rewrite IH.
    + rewrite !Ascii.eqb_refl. now rewrite IH.
    + rewrite Ascii.eqb_refl.
      pose proof (newline_out_CR_head s) as Hhead.
      destruct (newline_out [CR] s) as [|c' s'] eqn:E.
      * now rewrite <- IH.
      * unfold starts_outside in Hhead. cbv beta in Hhead.
        rewrite Hhead. now rewrite IH.
  - cbn [app universal_newlines]. destruct (Ascii.eqb_spec c CR); [done|].
    now rewrite IH.
Qed.

(** X15. The line separator of a file does not matter to the loader: a text
    without carriage returns, the same text with every line feed written as
    carriage return and line feed, and the same with every line feed written
    as a carriage return alone, load to the same outcome and the same store. *)
Theorem from_file_any_newline (fs fs' : filesystem) (file_path text linesep : str) (h : heap) :
  Forall (λ c, c ≠ CR) text →
  linesep = [CR; LF] ∨ linesep = [CR] →
  fs file_path = Some text →
  fs' file_path = Some (newline_out linesep text) →
  from_file fs' file_path h = from_file fs file_path h.
Proof.
  intros Htext Hsep Hfs Hfs'. unfold from_file, readlines.
  rewrite Hfs, Hfs', universal_newlines_out by tauto.
  now rewrite (universal_newlines_no_CR text).
Qed.

Lemma from_file_any_newline_witness :
  from_file (single_file ex_path (newline_out [CR; LF] ex_text)) ex_path ∅
  = from_file (single_file ex_path ex_text) ex_path ∅.
Proof.
  apply (from_file_any_newline (single_file ex_path ex_text) _ ex_path ex_text [CR; LF] ∅);
    [ repeat constructor; discriminate | now left | reflexivity | reflexivity ].
Defined.

(** ** The serializer, beyond the claims *)

Lemma digits1_minus (s : str) : digits1 ("-"%char :: s) = None.
Proof. reflexivity. Qed.

Lemma match_entry_negative (it : key * Z) :
  it.1.1 < 0 ∨ it.1.2 < 0 → match_entry (entry_text it) = None.
Proof.
  destruct it as [[r c] v]; cbn [fst snd]. intros Hneg.
  unfold match_entry, entry_text; cbn [fst snd lit list_ascii_of_string app expect].
  rewrite Ascii.eqb_refl. cbn [mbind option_bind].
  destruct (Z.ltb_spec r 0) as [Hr|Hr].
  - unfold str_of_int at 1. destruct (Z.ltb_spec r 0); [|lia].
    cbn [app]. now rewrite digits1_minus.
  - destruct Hneg as [?|Hc]; [lia|].
    destruct (str_of_int_form r) as (sg & d & _ & Hd & E & Hsg).
    rewrite (Hsg Hr) in E. cbn in E. rewrite E.
    rewrite digits1_app by done. cbn [mbind option_bind expect].
    rewrite Ascii.eqb_refl. cbn [mbind option_bind lstrip].
    change (isspace " ") with true. cbn iota.
    unfold str_of_int at 1. destruct (Z.ltb_spec c 0); [|lia].
    cbn [app lstrip]. change (isspace "-") with false. cbn iota.
    now rewrite digits1_minus.
Qed.

Lemma entry_of_negative (file_path : str) (lines : list str) (m : SparseMatrix)
    (i : nat) (it : key * Z) :
  strip (lines !!! i) = entry_text it → it.1.1 < 0 ∨ it.1.2 < 0 →
  (entry_of file_path lines m i).1
  = Raise (ValueError (msg_bad_entry (Z.of_nat i + 1) file_path (entry_text it))).
Proof.
  intros Hline Hneg. unfold entry_of. rewrite Hline.
  destruct (decide (entry_text it = [])) as [E|_];
    [now destruct (entry_text_trimmed it) as [Hne _]|].
  now rewrite match_entry_negative.
Qed.

(** X16. The text of a matrix with a negative key does not load: when the
    counts are non-negative and the first entry with a negative row or column
    index comes after [n] entries without one, [from_file] on the text of
    [__str__] raises the error of line [n + 3], whose content is the line of
    that entry. *)
Theorem negative_key_text_rejected (fs : filesystem) (file_path text : str) (h : heap)
    (l : loc) (M : SparseMatrix) (pre post : dict) (it : key * Z) :
  h !! l = Some M →
  0 ≤ row_count M → 0 ≤ col_count M →
  data M = pre ++ it :: post →
  (∀ r c v, ((r, c), v) ∈ pre → 0 ≤ r ∧ 0 ≤ c) →
  it.1.1 < 0 ∨ it.1.2 < 0 →
  __str__ l h = (Ok text, h) → fs file_path = Some text →
  ∃ h', from_file fs file_path h
        = (Raise (ValueError (msg_bad_entry (Z.of_nat (length pre) + 3) file_path
                                (entry_text it))), h').
Proof.
  intros El Hr Hc Hdata Hpre Hneg Hstr Hfs.
  rewrite (str_run _ _ _ El) in Hstr. injection Hstr as <-.
  pose proof (readlines_output M) as Hlines.
  set (lines := readlines (strip (output_of M))) in *.
  assert (Hlen : length lines = (2 + length (data M))%nat).
  { rewrite <- (length_fmap strip), Hlines. unfold text_lines. cbn.
    now rewrite length_fmap. }
  assert (Hat : ∀ j x, data M !! j = Some x → strip (lines !!! (2 + j)%nat) = entry_text x).
  { intros j x Hj. apply (strip_line_at lines _ _ _ Hlines).
    unfold text_lines. cbn [Nat.add]. rewrite !lookup_cons.
    now rewrite list_lookup_fmap, Hj. }
  rewrite (from_file_outcome fs file_path (strip (output_of M))
             (str_of_int (row_count M)) (str_of_int (col_count M)));
    [|done|fold lines; lia| |].
  2:{ fold lines. rewrite (strip_line_at lines _ 0 _ Hlines eq_refl).
      now apply match_rows_text. }
  2:{ fold lines. rewrite (strip_line_at lines _ 1 _ Hlines eq_refl).
      now apply match_cols_text. }
  fold lines. eexists. unfold loaded.
  replace (seq 2 (length lines - 2))
    with (seq 2 (length pre) ++ (2 + length pre)%nat :: seq (3 + length pre) (length post)).
  2:{ rewrite Hlen, Hdata, length_app. cbn [length].
      replace (2 + (length pre + S (length post)) - 2)%nat
        with (length pre + S (length post))%nat by lia.
      rewrite seq_app. cbn [seq]. repeat f_equal. }
  erewrite fold_result_raise; [reflexivity| |].
  - intros m i Hi. apply elem_of_seq in Hi.
    destruct (lookup_lt_is_Some_2 pre (i - 2)) as [x Hx]; [lia|].
    assert (Hx' : data M !! (i - 2)%nat = Some x).
    { rewrite Hdata. now apply lookup_app_l_Some. }
    destruct x as [[r c] v].
    destruct (Hpre r c v) as [Hr' Hc']; [eapply list_elem_of_lookup_2, Hx|].
    rewrite (entry_of_text _ _ _ _ ((r, c), v)); [done| |done|done].
    rewrite <- (Hat _ _ Hx'). f_equal. f_equal. lia.
  - intros m. rewrite (entry_of_negative _ _ _ _ it); [|  |done].
    + do 3 f_equal. lia.
    + apply Hat. rewrite Hdata. rewrite lookup_app_r by lia.
      now rewrite Nat.sub_diag.
Qed.

Lemma negative_key_text_rejected_witness :
  ∃ h', from_file (single_file ex_path ex_negative_text) ex_path {[0%nat := ex_negative]}
        = (Raise (ValueError (msg_bad_entry (Z.of_nat (length [((0, 0), 1)]) + 3) ex_path
                                (entry_text ((-1, 0), 5)))), h').
Proof.
  apply (negative_key_text_rejected (single_file ex_path ex_negative_text) ex_path
           ex_negative_text {[0%nat := ex_negative]} 0%nat ex_negative
           [((0, 0), 1)] [] ((-1, 0), 5));
    try reflexivity; try (cbn; lia).
  intros r c v Hin. apply list_elem_of_singleton in Hin. injection Hin as -> -> ->. lia.
Defined.





(** ** Saving, and the script *)

Lemma io_bind_run {A B} (m : IO A) (f : A → IO B) (w : world) :
  (m ≫= f) w = match m w with (Done a, w') => f a w' | (Failed e, w') => (Failed e, w') end.
Proof. reflexivity. Qed.

Lemma ret_io_run {A} (a : A) (w : world) : (mret a : IO A) w = (Done a, w).
Proof. reflexivity. Qed.





Lemma keeps_files_bind {A B} (m : IO A) (f : A → IO B) :
  keeps_files m → (∀ a, keeps_files (f a)) → keeps_files (m ≫= f).
Proof.
  intros Hm Hf w. rewrite io_bind_run. specialize (Hm w).
  destruct (m w) as [[a|e] w1]; cbn in *; [|done]. now rewrite Hf.
Qed.

Lemma keeps_files_print (s : str) : keeps_files (print s).
Proof. now intros w. Qed.

Lemma keeps_files_input (prompt : str) : keeps_files (input prompt).
Proof. intros w. unfold input. now destruct (stdin w). Qed.

Lemma keeps_files_call {A} (m : M A) : keeps_files (call m).
Proof. intros w. unfold call. now destruct (m (store w)) as [[a|e] h]. Qed.

Lemma keeps_files_call_fs {A} (m : filesystem → M A) : keeps_files (call_fs m).
Proof. intros w. unfold call_fs. apply keeps_files_call. Qed.

Lemma keeps_files_for_each_io {A} (xs : list A) (body : A → IO unit) :
  (∀ x, keeps_files (body x)) → keeps_files (for_each_io xs body).
Proof.
  intros Hbody. induction xs as [|x xs IH]; [now intros w|].
  cbn [for_each_io]. apply keeps_files_bind; [apply Hbody|]. now intros _.
Qed.

Lemma ends_well_bind {A} (m : IO A) (f : A → IO unit) :
  keeps_files m → (∀ a, ends_well (f a)) → ends_well (m ≫= f).
Proof.
  intros Hm Hf w. rewrite io_bind_run. specialize (Hm w).
  destruct (m w) as [[a|e] w1]; cbn in *; [|done].
  specialize (Hf a w1). destruct (f a w1) as [[[]|e] w2]; now rewrite <- Hm.
Qed.

Lemma ends_well_save (linesep : str) (self : loc) :
  ends_well (save_to_file linesep self result_path;;
             print (lit "Output file saved at: " ++ result_path)).
Proof.
  intros w. rewrite io_bind_run. unfold save_to_file. rewrite io_bind_run.
  pose proof (keeps_files_call (__str__ self) w) as Hcall.
  destruct (call (__str__ self) w) as [[content|e] w1]; cbn in *; [|done].
  eexists _, _. split; [now rewrite Hcall|reflexivity].
Qed.

Lemma calculations_end_well (linesep : str) : ends_well (calculations linesep).
Proof.
  unfold calculations.
  apply ends_well_bind; [apply keeps_files_print|intros _].
  apply ends_well_bind;
    [apply keeps_files_for_each_io; intros [key op]; apply keeps_files_print|intros _].
  apply ends_well_bind; [apply keeps_files_input|intros first_matrix_path].
  apply ends_well_bind; [apply keeps_files_call_fs|intros matrix1].
  apply ends_well_bind; [apply keeps_files_print|intros _].
  apply ends_well_bind; [apply keeps_files_input|intros second_matrix_path].
  apply ends_well_bind; [apply keeps_files_call_fs|intros matrix2].
  apply ends_well_bind; [apply keeps_files_print|intros _].
  apply ends_well_bind; [apply keeps_files_input|intros operation_choice].
  destruct (operations_get operations operation_choice) as [selected_operation|].
  - apply ends_well_bind; [apply keeps_files_call|intros result_matrix].
    apply ends_well_bind; [apply keeps_files_call|intros text].
    apply ends_well_bind; [apply keeps_files_print|intros _].
    apply ends_well_save.
  - now intros w.
Qed.

(** X20. [perform_calculations] never raises, and never leaves a half-done
    result: either it ends by printing [Error: <message>] and the files are
    as they were, or it ends by printing where the output was saved and the
    files differ by the content of [result.txt] alone. *)
Theorem perform_calculations_safe (linesep : str) (w : world) :
  ∃ w', perform_calculations linesep w = (Done tt, w') ∧
    ((files w' = files w ∧
      ∃ error pre, stdout w' = pre ++ lit "Error: " ++ exception_str error ++ [LF]) ∨
     (∃ text pre,
        files w' = file_write (files w) result_path text ∧
        stdout w' = pre ++ lit "Output file saved at: result.txt" ++ [LF])).
Proof.
  unfold perform_calculations, try_except.
  pose proof (calculations_end_well linesep w) as H.
  destruct (calculations linesep w) as [[[]|error] w1].
  - eexists. split; [reflexivity|]. now right.
  - eexists. split; [reflexivity|]. left. cbn. split; [done|].
    now exists error, (stdout w1).
Qed.


Lemma print_run (s : str) (fs : filesystem) (typed : list str) (out : str) (h : heap) :
  print s (mkWorld fs typed out h) = (Done tt, mkWorld fs typed (out ++ s ++ [LF]) h).
Proof. reflexivity. Qed.

Lemma input_run (prompt line : str) (fs : filesystem) (rest : list str) (out : str) (h : heap) :
  input prompt (mkWorld fs (line :: rest) out h)
  = (Done line, mkWorld fs rest (out ++ prompt) h).
Proof. reflexivity. Qed.

Lemma input_run_eof (prompt : str) (fs : filesystem) (out : str) (h : heap) :
  input prompt (mkWorld fs [] out h) = (Failed EOFError, mkWorld fs [] (out ++ prompt) h).
Proof. reflexivity. Qed.

Lemma call_run {A} (m : M A) (fs : filesystem) (typed : list str) (out : str) (h : heap) :
  call m (mkWorld fs typed out h)
  = match m h with
    | (Ok a, h') => (Done a, mkWorld fs typed out h')
    | (Raise e, h') => (Failed (MethodError e), mkWorld fs typed out h')
    end.
Proof. reflexivity. Qed.

Lemma call_fs_run {A} (m : filesystem → M A) (fs : filesystem) (typed : list str)
    (out : str) (h : heap) :
  call_fs m (mkWorld fs typed out h)
  = match m fs h with
    | (Ok a, h') => (Done a, mkWorld fs typed out h')
    | (Raise e, h') => (Failed (MethodError e), mkWorld fs typed out h')
    end.
Proof. reflexivity. Qed.

(** One step of the script: the next statement, in a world that is known. *)
Ltac io_step :=
  rewrite io_bind_run;
  first [ rewrite print_run | rewrite input_run | rewrite input_run_eof
        | rewrite call_fs_run | rewrite call_run ];
  cbv beta iota.

(** The menu, up to the first question. *)
Lemma calculations_menu (linesep : str) (fs : filesystem) (typed : list str) (out : str)
    (h : heap) (k : str → IO unit) :
  (print (lit "Available operations:");;
   for_each_io operations (λ '(key, op), print (key ++ lit ": " ++ op.1));;
   first_matrix_path ← input (lit "Enter the file path for the first matrix: ");
   k first_matrix_path) (mkWorld fs typed out h)
  = match typed with
    | [] => (Failed EOFError, mkWorld fs [] (out ++ menu_text) h)
    | p1 :: rest => k p1 (mkWorld fs rest (out ++ menu_text) h)
    end.
Proof.
  io_step. rewrite io_bind_run. cbn [for_each_io operations].
  do 3 (io_step; cbn [fst snd]). rewrite ret_io_run. cbv beta iota.
  assert (Hout :
    ((((out ++ lit "Available operations:" ++ [LF])
         ++ (lit "1" ++ lit ": " ++ lit "subtraction") ++ [LF])
        ++ (lit "2" ++ lit ": " ++ lit "multiplication") ++ [LF])
       ++ (lit "3" ++ lit ": " ++ lit "addition") ++ [LF])
      ++ lit "Enter the file path for the first matrix: "
    = out ++ menu_text).
  { unfold menu_text. rewrite <- !app_assoc. reflexivity. }
  destruct typed as [|p1 rest]; io_step; now rewrite Hout.
Qed.

(** The script up to the choice of the operation, when both files load. *)
Lemma calculations_run_choice (linesep : str) (fs : filesystem) (out : str) (h h1 h2 : heap)
    (p1 p2 choice : str) (rest : list str) (a b : loc) :
  from_file fs p1 h = (Ok a, h1) → from_file fs p2 h1 = (Ok b, h2) →
  calculations linesep (mkWorld fs (p1 :: p2 :: choice :: rest) out h)
  = match operations_get operations choice with
    | None =>
        (Failed (MethodError (ValueError (lit "Invalid operation choice."))),
         mkWorld fs rest (out ++ menu_text ++ loaded_text) h2)
    | Some selected_operation =>
        (result_matrix ← call (selected_operation.2 a b);
         text ← call (__str__ result_matrix);
         print (lit "Output of " ++ selected_operation.1 ++ lit " operation:" ++ [LF] ++ text);;
         save_to_file linesep result_matrix result_path;;
         print (lit "Output file saved at: " ++ result_path))
          (mkWorld fs rest (out ++ menu_text ++ loaded_text) h2)
    end.
Proof.
  intros H1 H2. unfold calculations. rewrite (calculations_menu linesep).
  io_step. rewrite H1. cbv beta iota.
  do 2 io_step. io_step. rewrite H2. cbv beta iota.
  do 2 io_step.
  assert (Hout :
    ((((out ++ menu_text) ++ (lit "1st matrix loaded successfully." ++ [LF]) ++ [LF])
        ++ lit "Enter the file path for the second matrix: ")
       ++ (lit "2nd matrix loaded successfully." ++ [LF]) ++ [LF])
      ++ lit "Choose an operation (1, 2, or 3): "
    = out ++ menu_text ++ loaded_text).
  { unfold loaded_text. rewrite <- !app_assoc. reflexivity. }
  rewrite Hout. now destruct (operations_get operations choice).
Qed.





(** X22. How the script fails.  With nothing to read it reports the end of
    the input after the menu.  When the first file does not load it reports
    the loader's message and does not ask for the second path.  When both
    files load and the choice is none of 1, 2 and 3 it reports an invalid
    choice, after both matrices have been loaded.  In each case the files are
    as they were. *)
Theorem calculations_errors (linesep : str) (fs : filesystem) (out : str) (h : heap) :
  perform_calculations linesep (mkWorld fs [] out h)
  = (Done tt,
     mkWorld fs [] (out ++ menu_text ++ lit "Error: EOF when reading a line" ++ [LF]) h) ∧
  (∀ p1 rest e h1, from_file fs p1 h = (Raise e, h1) →
     perform_calculations linesep (mkWorld fs (p1 :: rest) out h)
     = (Done tt,
        mkWorld fs rest
          (out ++ menu_text ++ lit "Error: " ++ exception_str (MethodError e) ++ [LF]) h1)) ∧
  (∀ p1 p2 choice rest a b h1 h2,
     from_file fs p1 h = (Ok a, h1) → from_file fs p2 h1 = (Ok b, h2) →
     choice ≠ lit "1" → choice ≠ lit "2" → choice ≠ lit "3" →
     perform_calculations linesep (mkWorld fs (p1 :: p2 :: choice :: rest) out h)
     = (Done tt,
        mkWorld fs rest
          (out ++ menu_text ++ loaded_text ++ lit "Error: Invalid operation choice." ++ [LF])
          h2)).
Proof.
  unfold perform_calculations, try_except. split; [|split].
  - unfold calculations. rewrite (calculations_menu linesep).
    rewrite print_run. now rewrite <- !app_assoc.
  - intros p1 rest e h1 H1. unfold calculations. rewrite (calculations_menu linesep).
    io_step. rewrite H1. cbv beta iota. rewrite print_run. now rewrite <- !app_assoc.
  - intros p1 p2 choice rest a b h1 h2 H1 H2 N1 N2 N3.
    rewrite (calculations_run_choice linesep fs out h h1 h2 p1 p2 choice rest a b H1 H2).
    cbn [operations_get operations]. rewrite !decide_False by congruence.
    rewrite print_run. cbn [exception_str]. now rewrite <- !app_assoc.
Qed.

Lemma calculations_errors_witness :
  perform_calculations [LF] (ex_world [lit "missing.txt"; lit "b.txt"])
  = (Done tt,
     mkWorld ex_files [lit "b.txt"]
       ([] ++ menu_text ++ lit "Error: "
           ++ exception_str (MethodError (FileNotFoundError
                (lit "File not found: " ++ lit "missing.txt"))) ++ [LF]) ∅) ∧
  perform_calculations [LF] (ex_world [lit "a.txt"; lit "b.txt"; lit " 2"; lit "2"])
  = (Done tt,
     mkWorld ex_files [lit "2"]
       ([] ++ menu_text ++ loaded_text ++ lit "Error: Invalid operation choice." ++ [LF])
       {[1%nat := ex_B; 0%nat := ex_A]}).
Proof.
  destruct (calculations_errors [LF] ex_files [] ∅) as (_ & Hload & Hchoice). split.
  - exact (Hload (lit "missing.txt") [lit "b.txt"] _ ∅ eq_refl).
  - apply (Hchoice (lit "a.txt") (lit "b.txt") (lit " 2") [lit "2"] 0%nat 1%nat
             {[0%nat := ex_A]});
      [reflexivity | reflexivity | discriminate | discriminate | discriminate].
Defined.
